(** * Meeper: capture -> chunk -> transcribe -> ordered transcript

    A shallow embedding of the recording core of the Meeper extension:
    - [core/meeper.ts]    ([recordMeeper]: [onAudio], [start], [pause],
                           [stop], [checkIsStreamIsActive]);
    - [lib/capture-audio/captureAudio.ts] ([captureAudio]);
    - [components/Popup.tsx] ([matchRecordType]) and
      [components/RecordHeader.tsx] ([statusText]).

    JavaScript strings are sequences of UTF-16 code units, arrays are lists,
    closures over mutable variables become records threaded through the
    functions that assign them, and calls that leave the module (state
    notifications, track stops, timers, console output) are appended to an
    effect trace. *)

From Stdlib Require Import ZArith Lia String Ascii.
From stdpp Require Import base decidable option numbers list.

Local Open Scope Z_scope.

(* ===================================================================== *)
(** ** JavaScript strings and arrays *)
(* ===================================================================== *)

Module JS.

(** A UTF-16 code unit. *)
Definition codeunit := N.

(** A JavaScript string value. *)
Definition jsstring := list codeunit.

(** An ASCII literal as a JavaScript string. *)
Definition str (s : string) : jsstring :=
  map N_of_ascii (list_ascii_of_string s).

(** ECMAScript [WhiteSpace] and [LineTerminator] code points, the set
    removed by [String.prototype.trim]. All of them lie in the BMP. *)
Definition isWhiteSpace (c : codeunit) : bool :=
  ((9 <=? c) && (c <=? 13) || (c =? 32) || (c =? 160) || (c =? 5760)
   || (8192 <=? c) && (c <=? 8202) || (c =? 8232) || (c =? 8233)
   || (c =? 8239) || (c =? 8287) || (c =? 12288) || (c =? 65279))%N.

Fixpoint trimStart (s : jsstring) : jsstring :=
  match s with
  | c :: s' => if isWhiteSpace c then trimStart s' else s
  | [] => []
  end.

Definition trimEnd (s : jsstring) : jsstring := rev (trimStart (rev s)).

(** [String.prototype.trim] *)
Definition trim (s : jsstring) : jsstring := trimEnd (trimStart s).

(** [String.prototype.endsWith] with one argument. *)
Definition endsWith (s search : jsstring) : bool :=
  let len := Z.of_nat (length s) in
  let start := len - Z.of_nat (length search) in
  if start <? 0 then false
  else bool_decide (drop (Z.to_nat start) s = search).

(** [Array.prototype.slice] / [String.prototype.slice] on integer
    arguments: a negative index counts from the end, and both indices are
    clamped to the range [0 .. length]. *)
Definition slice {A} (l : list A) (start end_ : Z) : list A :=
  let len := Z.of_nat (length l) in
  let k := if start <? 0 then Z.max (len + start) 0 else Z.min start len in
  let final := if end_ <? 0 then Z.max (len + end_) 0 else Z.min end_ len in
  take (Z.to_nat (final - k)) (drop (Z.to_nat k) l).

(** [Array.prototype.join] on an array of strings. *)
Fixpoint join (sep : jsstring) (l : list jsstring) : jsstring :=
  match l with
  | [] => []
  | [x] => x
  | x :: rest => x ++ sep ++ join sep rest
  end.

(** The last [k] elements of an array (all of them when it has fewer). *)
Definition lastN {A} (k : nat) (l : list A) : list A :=
  drop (length l - k) l.

(** [a[i]] for an integer [i]: [undefined] outside the array. *)
Definition index {A} (l : list A) (i : Z) : option A :=
  if i <? 0 then None else l !! Z.to_nat i.

(** [a[i] = v] for an index inside the array. The only assignment in the
    embedded code writes the last position of a non-empty array, see
    [last_index_in_range]. *)
Definition assign {A} (l : list A) (i : Z) (v : A) : list A :=
  if i <? 0 then l else <[Z.to_nat i := v]> l.

(** JavaScript truthiness of an optional string: [undefined] and the empty
    string are falsy. *)
Definition truthy (o : option jsstring) : bool :=
  match o with
  | Some (_ :: _) => true
  | _ => false
  end.

End JS.

(* ===================================================================== *)
(** ** The transcript: prompt construction and the merge rule *)
(* ===================================================================== *)

Module Transcript.
Import JS.

(** [MeeperState.content] *)
Definition content := list jsstring.

Definition threeDot : jsstring := str "...".
Definition newline : jsstring := [10%N].
Definition space : jsstring := [32%N].

(** [content.slice(content.length - 3, content.length).join("\n")] *)
Definition whisperPrompt (c : content) : jsstring :=
  let len := Z.of_nat (length c) in
  join newline (slice c (len - 3) len).

(** [savedLanguage !== "auto" ? savedLanguage : undefined] *)
Definition languageOption (savedLanguage : jsstring) : option jsstring :=
  if bool_decide (savedLanguage = str "auto") then None
  else Some savedLanguage.

(** The options object handed to [requestWhisperOpenaiApi]. *)
Record WhisperOptions := {
  apiKey : option jsstring;
  prompt : jsstring;
  language : option jsstring;
}.

(** [{ apiKey: process.env.OPENAI_API_KEY, prompt: whisperPrompt,
       language: savedLanguage !== "auto" ? savedLanguage : undefined }] *)
Definition whisperOptions (key : option jsstring) (whisperPrompt : jsstring)
    (savedLanguage : jsstring) : WhisperOptions :=
  {| apiKey := key;
     prompt := whisperPrompt;
     language := languageOption savedLanguage |}.

(** The transcript mutation of the queued task in [onAudio], from
    [const lastItem] to the end of the [if]/[else], for a text that passed
    the [if (!text) return] test. *)
Definition mergeInto (c : content) (text : jsstring) : content :=
  let lastIdx := Z.of_nat (length c) - 1 in
  match trim <$> index c lastIdx with
  | Some lastItem =>
      if truthy (Some lastItem) && endsWith lastItem threeDot then
        let lastItemWithoutThreeDot :=
          slice lastItem 0 (Z.of_nat (length lastItem) - 3) in
        assign c lastIdx (lastItemWithoutThreeDot ++ space ++ text)
      else c ++ [text]
  | None => c ++ [text]
  end.

(** The array after the task for the value [text] of
    [await textPromise.catch(console.error)], which is [undefined] when
    the request was rejected. *)
Definition applyText (c : content) (text : option jsstring) : content :=
  if negb (truthy text) then c else mergeInto c (default [] text).

End Transcript.

(* ===================================================================== *)
(** ** captureAudio: buffering and flushing of recorded audio *)
(* ===================================================================== *)

Module Capture.
Import JS.

(** Binary data of a [Blob], as bytes. *)
Definition Blob := list N.

Record File := {
  fileName : jsstring;
  fileType : jsstring;
  fileData : Blob;
}.

(** Calls that leave the closure. [recordAudio] and [detectSpeechEnd] are
    imported from sibling modules; a call of [recordAudio] is identified
    by its rank, and [StopRecord id] is a call of the function that the
    [id]-th [recordAudio] call returned. *)
Inductive Effect :=
| ConsoleInfo (msg : jsstring)
| RecordAudio (id : nat)
| StopRecord (id : nat)
| StopSpeechDetect
| OnAudio (f : File).

(** The variables captured by the closures of one [captureAudio] call,
    the timers it has pending and the calls it has made. A timer holds the
    value [stopRecord] had when [setTimeout(stopRecord!, 30)] ran. *)
Record State := {
  minChunkDuration : Z;
  startedAt : option Z;
  chunks : list Blob;
  stopRecord : option nat;
  timers : list (option nat);
  nextRecorder : nat;
  effects : list Effect;
}.

Definition emit (e : Effect) (s : State) : State :=
  {| minChunkDuration := minChunkDuration s; startedAt := startedAt s;
     chunks := chunks s; stopRecord := stopRecord s; timers := timers s;
     nextRecorder := nextRecorder s; effects := effects s ++ [e] |}.

(** [captureAudio({ stream, audioCtx, onAudio, minChunkDuration = 5_000 })]
    up to its [return]. *)
Definition captureAudio (minChunkDuration : option Z) : State :=
  {| minChunkDuration := default 5000 minChunkDuration;
     startedAt := None; chunks := []; stopRecord := None; timers := [];
     nextRecorder := 0; effects := [] |}.

(** [Date.now() - startedAt < minChunkDuration]; with [startedAt]
    undefined the difference is NaN and the comparison is false. *)
Definition belowMinDuration (now : Z) (s : State) : bool :=
  match startedAt s with
  | Some t => now - t <? minChunkDuration s
  | None => false
  end.

(** [new File([new Blob(chunks, ...)], "meeper_chunk.webm", ...)] *)
Definition chunkFile (cs : list Blob) : File :=
  {| fileName := str "meeper_chunk.webm";
     fileType := str "audio/webm";
     fileData := concat cs |}.

(** [onDataAvailable(evt)]; [now1] and [now2] are the values of the two
    [Date.now()] calls, in program order. *)
Definition onDataAvailable (data : Blob) (now1 now2 : Z) (s : State)
    : State :=
  let chunks1 := chunks s ++ [data] in
  if belowMinDuration now1 s then
    {| minChunkDuration := minChunkDuration s; startedAt := startedAt s;
       chunks := chunks1; stopRecord := stopRecord s; timers := timers s;
       nextRecorder := nextRecorder s; effects := effects s |}
  else
    {| minChunkDuration := minChunkDuration s; startedAt := Some now2;
       chunks := []; stopRecord := stopRecord s; timers := timers s;
       nextRecorder := nextRecorder s;
       effects := effects s ++ [OnAudio (chunkFile chunks1)] |}.

(** [!startedAt]: undefined and 0 are falsy. *)
Definition startedAtFalsy (s : State) : bool :=
  match startedAt s with
  | Some t => t =? 0
  | None => true
  end.

Definition startRecord (now : Z) (s : State) : State :=
  {| minChunkDuration := minChunkDuration s;
     startedAt := if startedAtFalsy s then Some now else startedAt s;
     chunks := chunks s;
     stopRecord := Some (nextRecorder s);
     timers := timers s;
     nextRecorder := S (nextRecorder s);
     effects := effects s ++ [RecordAudio (nextRecorder s)] |}.

Definition onSpeechStart (now : Z) (s : State) : State :=
  startRecord now (emit (ConsoleInfo (str "[Speech] started.")) s).

(** [setTimeout(stopRecord!, 30)]: the argument is evaluated now. *)
Definition onSpeechEnd (s : State) : State :=
  let s := emit (ConsoleInfo (str "[Speech] end.")) s in
  {| minChunkDuration := minChunkDuration s; startedAt := startedAt s;
     chunks := chunks s; stopRecord := stopRecord s;
     timers := timers s ++ [stopRecord s];
     nextRecorder := nextRecorder s; effects := effects s |}.

(** The oldest pending timer fires (all have the same delay). *)
Definition fireTimer (s : State) : State :=
  match timers s with
  | [] => s
  | h :: rest =>
      {| minChunkDuration := minChunkDuration s; startedAt := startedAt s;
         chunks := chunks s; stopRecord := stopRecord s; timers := rest;
         nextRecorder := nextRecorder s;
         effects := effects s ++
                    match h with Some id => [StopRecord id] | None => [] end |}
  end.

(** The function returned by [captureAudio]:
    [() => { stopSpeechDetect(); stopRecord?.(); }] *)
Definition teardown (s : State) : State :=
  let s := emit StopSpeechDetect s in
  match stopRecord s with
  | Some id => emit (StopRecord id) s
  | None => s
  end.

(** The files handed to [onAudio] so far. *)
Definition emitted (s : State) : list File :=
  omap (fun e => match e with OnAudio f => Some f | _ => None end)
       (effects s).

(** A sequence of data events, each with its two clock readings. *)
Definition dataEvents (evs : list (Blob * Z * Z)) (s : State) : State :=
  foldl (fun s '(data, now1, now2) => onDataAvailable data now1 now2 s)
        s evs.

(** The bytes recorded so far: those handed on, then those buffered. *)
Definition recorded (s : State) : Blob :=
  concat (fileData <$> emitted s) ++ concat (chunks s).

End Capture.

(* ===================================================================== *)
(** ** recordMeeper: the session controller and the stream monitor *)
(* ===================================================================== *)

Module Session.
Import JS Transcript.

(** [MediaStreamTrack.readyState] *)
Inductive readyState := live | ended.

#[global] Instance readyState_eq_dec : EqDecision readyState.
Proof. solve_decision. Defined.

Abbreviation TrackId := nat (only parsing).

(** A [MediaStream] object, as the tracks [getTracks()] returns. Streams
    may share tracks; the state of every track lives in one store. *)
Abbreviation MediaStream := (list TrackId) (only parsing).

(** The state of every track, by identifier. A track the store does not
    hold counts as ended. *)
Abbreviation TrackStore := (list readyState) (only parsing).

Definition isLive (σ : TrackStore) (t : TrackId) : bool :=
  bool_decide (σ !! t = Some live).

(** [MediaStream.active]: some track has not ended. *)
Definition active (σ : TrackStore) (m : MediaStream) : bool :=
  existsb (isLive σ) m.

(** Calls that leave [recordMeeper]. [Dispatch] stands for [dispatch()]:
    [onStateUpdate({ recording, content })] followed by
    [syncTabRecordState]; the array is passed by reference and is recorded
    here as it is at the call. *)
Inductive Effect :=
| Dispatch (recording : bool) (c : content)
| CaptureAudio (id : nat) (m : MediaStream)
| StopCaptureAudio (id : nat)
| TrackStop (t : TrackId)
| ConsoleError
| Persist (c : content).

(** The variables of the [recordMeeper] closure ([recording], [content],
    [tabCaptureStream], [micStream], [stream], [stopCaptureAudio]) and the
    part of the world they act on: the track store, the [captureAudio]
    calls still running ([captures]), whether a
    [setTimeout(checkIsStreamIsActive, 500)] is pending, and the calls
    made so far. *)
Record Session := {
  recording : bool;
  content : Transcript.content;
  tabCaptureStream : option MediaStream;
  micStream : option MediaStream;
  stream : MediaStream;
  stopCaptureAudio : option nat;
  tracks : TrackStore;
  captures : list nat;
  nextCapture : nat;
  pendingPoll : bool;
  effects : list Effect;
}.

Definition set_recording (b : bool) (s : Session) : Session :=
  {| recording := b; content := content s;
     tabCaptureStream := tabCaptureStream s; micStream := micStream s;
     stream := stream s; stopCaptureAudio := stopCaptureAudio s;
     tracks := tracks s; captures := captures s;
     nextCapture := nextCapture s; pendingPoll := pendingPoll s;
     effects := effects s |}.

Definition set_content (c : Transcript.content) (s : Session) : Session :=
  {| recording := recording s; content := c;
     tabCaptureStream := tabCaptureStream s; micStream := micStream s;
     stream := stream s; stopCaptureAudio := stopCaptureAudio s;
     tracks := tracks s; captures := captures s;
     nextCapture := nextCapture s; pendingPoll := pendingPoll s;
     effects := effects s |}.

Definition set_mic (m : MediaStream) (merged : MediaStream) (s : Session)
    : Session :=
  {| recording := recording s; content := content s;
     tabCaptureStream := tabCaptureStream s; micStream := Some m;
     stream := merged; stopCaptureAudio := stopCaptureAudio s;
     tracks := tracks s; captures := captures s;
     nextCapture := nextCapture s; pendingPoll := pendingPoll s;
     effects := effects s |}.

Definition set_tracks (σ : TrackStore) (s : Session) : Session :=
  {| recording := recording s; content := content s;
     tabCaptureStream := tabCaptureStream s; micStream := micStream s;
     stream := stream s; stopCaptureAudio := stopCaptureAudio s;
     tracks := σ; captures := captures s;
     nextCapture := nextCapture s; pendingPoll := pendingPoll s;
     effects := effects s |}.

Definition set_pendingPoll (b : bool) (s : Session) : Session :=
  {| recording := recording s; content := content s;
     tabCaptureStream := tabCaptureStream s; micStream := micStream s;
     stream := stream s; stopCaptureAudio := stopCaptureAudio s;
     tracks := tracks s; captures := captures s;
     nextCapture := nextCapture s; pendingPoll := b;
     effects := effects s |}.

Definition emit (e : Effect) (s : Session) : Session :=
  {| recording := recording s; content := content s;
     tabCaptureStream := tabCaptureStream s; micStream := micStream s;
     stream := stream s; stopCaptureAudio := stopCaptureAudio s;
     tracks := tracks s; captures := captures s;
     nextCapture := nextCapture s; pendingPoll := pendingPoll s;
     effects := effects s ++ [e] |}.

(** [captureAudio({ stream, audioCtx, onAudio })]: a new capture runs and
    its teardown function is stored in [stopCaptureAudio]. *)
Definition callCaptureAudio (s : Session) : Session :=
  let id := nextCapture s in
  {| recording := recording s; content := content s;
     tabCaptureStream := tabCaptureStream s; micStream := micStream s;
     stream := stream s; stopCaptureAudio := Some id;
     tracks := tracks s; captures := captures s ++ [id];
     nextCapture := S id; pendingPoll := pendingPoll s;
     effects := effects s ++ [CaptureAudio id (stream s)] |}.

(** [stopCaptureAudio?.()] *)
Definition callStopCaptureAudio (s : Session) : Session :=
  match stopCaptureAudio s with
  | None => s
  | Some id =>
      {| recording := recording s; content := content s;
         tabCaptureStream := tabCaptureStream s; micStream := micStream s;
         stream := stream s; stopCaptureAudio := stopCaptureAudio s;
         tracks := tracks s;
         captures := filter (fun c => c ≠ id) (captures s);
         nextCapture := nextCapture s; pendingPoll := pendingPoll s;
         effects := effects s ++ [StopCaptureAudio id] |}
  end.

Definition dispatch (s : Session) : Session :=
  emit (Dispatch (recording s) (content s)) s.

Definition start (s : Session) : Session :=
  if recording s || negb (active (tracks s) (stream s)) then s
  else callCaptureAudio (dispatch (set_recording true s)).

Definition pause (s : Session) : Session :=
  if negb (recording s) then s
  else callStopCaptureAudio (dispatch (set_recording false s)).

(** [track.stop()] *)
Definition trackStop (s : Session) (t : TrackId) : Session :=
  emit (TrackStop t) (set_tracks (<[t := ended]> (tracks s)) s).

Definition stop (s : Session) : Session :=
  let s := pause s in
  if active (tracks s) (stream s) then foldl trackStop s (stream s)
  else s.

(** *** The task handed to the queue *)

(** A settled promise. *)
Inductive Settled (A : Type) := Fulfilled (v : A) | Rejected.
Arguments Fulfilled {A} v.
Arguments Rejected {A}.

(** How a block of statements ends. *)
Inductive Completion (A : Type) := Normal (a : A) | Throw.
Arguments Normal {A} a.
Arguments Throw {A}.

(** Statements of the task: they act on the session and may throw. *)
Definition M (A : Type) := Session -> Completion A * Session.

Definition ret {A} (a : A) : M A := fun s => (Normal a, s).

Definition bind {A B} (m : M A) (k : A -> M B) : M B :=
  fun s => match m s with
           | (Normal a, s') => k a s'
           | (Throw, s') => (Throw, s')
           end.

#[global] Instance M_ret : MRet M := @ret.
#[global] Instance M_bind : MBind M := fun A B k m => bind m k.

Definition lift (f : Session -> Session) : M unit :=
  fun s => (Normal tt, f s).

(** [try { body } catch (err) { handler }] *)
Definition tryCatch {A} (body handler : M A) : M A :=
  fun s => match body s with
           | (Normal a, s') => (Normal a, s')
           | (Throw, s') => handler s'
           end.

(** [await p]: a rejected promise throws. *)
Definition await {A} (p : Settled A) : M A :=
  fun s => match p with
           | Fulfilled v => (Normal v, s)
           | Rejected => (Throw, s)
           end.

(** [p.catch(console.error)]: the rejection is logged and the new promise
    is fulfilled with [undefined]. *)
Definition catchConsoleError {A} (p : Settled A) : M (Settled (option A)) :=
  fun s => match p with
           | Fulfilled v => (Normal (Fulfilled (Some v)), s)
           | Rejected => (Normal (Fulfilled None), emit ConsoleError s)
           end.

(** The function passed to [withQueue] by [onAudio]. [textPromise] is the
    promise returned by [retry], [dbUpdates] the
    [Promise.all([dbRecords.update ..., dbContents.update ...])]. *)
Definition queueTask (textPromise : Settled jsstring)
    (dbUpdates : Settled unit) : M unit :=
  tryCatch
    (caught ← catchConsoleError textPromise;
     text ← await caught;
     if negb (truthy text) then mret tt
     else
       lift (fun s => set_content (mergeInto (content s) (default [] text)) s);;
       lift dispatch;;
       lift (fun s => emit (Persist (content s)) s);;
       saved ← catchConsoleError dbUpdates;
       _ ← await saved;
       mret tt)
    (lift (emit ConsoleError)).

(** *** The stream monitor *)

(** What happens while [checkIsStreamIsActive] is suspended at
    [await micCapture()], and between polls: commands from the message
    listener or the page, tracks ending, queued tasks running. *)
Inductive Event :=
| Start
| Pause
| Stop
| TrackEnded (t : TrackId)
| TaskRun (textPromise : Settled jsstring) (dbUpdates : Settled unit).

Definition runEvent (s : Session) (e : Event) : Session :=
  match e with
  | Start => start s
  | Pause => pause s
  | Stop => stop s
  | TrackEnded t => set_tracks (<[t := ended]> (tracks s)) s
  | TaskRun textPromise dbUpdates => snd (queueTask textPromise dbUpdates s)
  end.

Definition runEvents (es : list Event) (s : Session) : Session :=
  foldl runEvent s es.

(** The settled [micCapture()] promise. *)
Inductive MicCapture := Acquired (newMicStream : MediaStream) | Failed.

(** [s?.active ?? true] *)
Definition sourceActive (σ : TrackStore) (o : option MediaStream) : bool :=
  match o with
  | Some m => active σ m
  | None => true
  end.

(** [micStream && !micStream.active] *)
Definition micLost (s : Session) : bool :=
  match micStream s with
  | Some m => negb (active (tracks s) m)
  | None => false
  end.

Section Monitor.

(** [mergeStreams(audioCtx, { tabCaptureStream, micStream })], imported
    from lib/capture-audio: the tracks of the merged stream, which may
    or may not be tracks of the sources. *)
Variable mergeStreams :
  option MediaStream -> option MediaStream -> MediaStream.

(** The [.then] callback of [micCapture()]. *)
Definition onMicCapture (newMicStream : MediaStream) (s : Session)
    : Session :=
  let restart := recording s in
  let s := if recording s then pause s else s in
  let s := set_mic newMicStream
             (mergeStreams (tabCaptureStream s) (Some newMicStream)) s in
  if restart then start s else dispatch s.

(** [checkIsStreamIsActive] from [const isStreamsActive] on. *)
Definition checkStreams (s : Session) : Session :=
  let isStreamsActive :=
    forallb (sourceActive (tracks s)) [tabCaptureStream s; micStream s] in
  if negb isStreamsActive then dispatch (stop s)
  else set_pendingPoll true s.

(** One run of [checkIsStreamIsActive]. [during] is what happens while
    it awaits [micCapture()], [r] how that promise settles; neither is
    used when the microphone is not found inactive. *)
Definition checkIsStreamIsActive (during : list Event) (r : MicCapture)
    (s : Session) : Session :=
  let s := set_pendingPoll false s in
  let s :=
    if micLost s then
      let s := runEvents during s in
      match r with
      | Acquired newMicStream => onMicCapture newMicStream s
      | Failed => emit ConsoleError s
      end
    else s in
  checkStreams s.

(** The closure state when [recordMeeper] has declared its variables. *)
Definition init (tab mic : option MediaStream) (σ : TrackStore)
    : Session :=
  {| recording := false; content := [];
     tabCaptureStream := tab; micStream := mic;
     stream := mergeStreams tab mic; stopCaptureAudio := None;
     tracks := σ; captures := []; nextCapture := 0%nat;
     pendingPoll := false; effects := [] |}.

(** [start(); checkIsStreamIsActive();] at the end of [recordMeeper]. *)
Definition recordMeeper (tab mic : option MediaStream) (σ : TrackStore)
    (during : list Event) (r : MicCapture) : Session :=
  checkIsStreamIsActive during r (start (init tab mic σ)).

End Monitor.

(** The store after stopping the tracks of [m] one by one. *)
Definition stopAll (σ : TrackStore) (m : MediaStream) : TrackStore :=
  foldl (fun σ t => <[t := ended]> σ) σ m.

(** No track that has ended in [σ] is live in [σ']. *)
Definition noRevival (σ σ' : TrackStore) : Prop :=
  forall t, isLive σ' t = true -> isLive σ t = true.

(** The session has stopped for good: it is not recording, no capture is
    running and the recorded stream is inactive. *)
Definition halted (s : Session) : Prop :=
  recording s = false /\ captures s = [] /\
  active (tracks s) (stream s) = false.

(** The running captures are the one [stopCaptureAudio] tears down while
    recording, and none otherwise. *)
Definition capturesTracked (s : Session) : Prop :=
  captures s =
  if recording s then from_option (fun id => [id]) [] (stopCaptureAudio s)
  else [].

(** What every command, track end and queue task respects: the sources
    and the recorded stream stay the same objects, the poll timer is not
    touched, no ended track comes back, and the running captures stay
    tracked. *)
Definition evolves (s s' : Session) : Prop :=
  tabCaptureStream s' = tabCaptureStream s /\
  micStream s' = micStream s /\
  stream s' = stream s /\
  pendingPoll s' = pendingPoll s /\
  noRevival (tracks s) (tracks s') /\
  (capturesTracked s -> capturesTracked s').

(** The calls a queue task makes for the text it received. *)
Definition taskEffects (recording : bool) (c : Transcript.content)
    (text : option jsstring) (dbUpdates : Settled unit) : list Effect :=
  match text with
  | None => [ConsoleError]
  | Some [] => []
  | Some T =>
      [Dispatch recording (mergeInto c T); Persist (mergeInto c T)] ++
      match dbUpdates with
      | Fulfilled _ => []
      | Rejected => [ConsoleError]
      end
  end.

(** The state notifications among some calls. *)
Definition notifications (es : list Effect)
    : list (bool * Transcript.content) :=
  omap (fun e => match e with Dispatch r c => Some (r, c) | _ => None end)
       es.

(** The value of [await textPromise.catch(console.error)]. *)
Definition caughtText (textPromise : Settled jsstring) : option jsstring :=
  match textPromise with
  | Fulfilled t => Some t
  | Rejected => None
  end.

End Session.

(* ===================================================================== *)
(** ** onAudio: concurrent requests, serial application *)
(* ===================================================================== *)

Module Pipeline.
Import JS Transcript Session.

(** Modelled from the spec: [retry] of lib/system, whose source is not
    part of this development. "The call is wrapped in a bounded retry: on
    failure, retry up to [maxAttempts] with a fixed inter-attempt delay;
    if all attempts fail, the failure is reported to the caller."
    [action k] is how the [k]-th call (counted from 0) settles; the result
    is the settled promise and the number of calls made. With no attempt
    allowed the promise is rejected without a call. *)
Fixpoint retryFrom {A} (action : nat -> Settled A) (attempt : nat)
    (maxAttempts : nat) : Settled A * nat :=
  match maxAttempts with
  | O => (Rejected, attempt)
  | S remaining =>
      match action attempt with
      | Fulfilled v => (Fulfilled v, S attempt)
      | Rejected => retryFrom action (S attempt) remaining
      end
  end.

Definition retry {A} (action : nat -> Settled A) (delay : Z)
    (maxAttempts : nat) : Settled A :=
  fst (retryFrom action 0 maxAttempts).

(** The arguments [onAudio] passes to [retry]. *)
Definition retryDelay : Z := 100.
Definition retryMaxAttempts : nat := 2.

Abbreviation ChunkId := nat (only parsing).

Inductive Event :=
| AudioChunk (i : ChunkId)
| LangCode (i : ChunkId) (savedLanguage : jsstring)
| Settle (i : ChunkId)
| RunTask.

(** The session together with the [onAudio] calls in progress.
    - [awaiting]: calls suspended at [await getLangCode()], with the
      [whisperPrompt] each computed before suspending;
    - [requests]: the options of the requests started so far;
    - [queue]: Modelled from the spec: the queue made by [promiseQueue()]
      of lib/system, "a strictly serial queue" that "drains one task at a
      time: task N does not begin executing until task N-1 has finished";
      the tasks handed to [withQueue] and not finished, oldest first;
    - [settled]: the chunks whose [textPromise] has settled;
    - [created], [enqueued]: history, the chunks in the order [onAudio]
      was called for them and in the order of the [withQueue] calls. *)
Record State := {
  session : Session;
  awaiting : list (ChunkId * jsstring);
  requests : list (ChunkId * WhisperOptions);
  queue : list ChunkId;
  settled : list ChunkId;
  created : list ChunkId;
  enqueued : list ChunkId;
}.

Definition lookupAwaiting (i : ChunkId) (l : list (ChunkId * jsstring))
    : option jsstring :=
  snd <$> head (filter (fun x => fst x = i) l).

Section Run.

(** How the [k]-th call of [requestWhisperOpenaiApi] for chunk [i]
    settles, and how the database updates of its task settle. *)
Variable request : ChunkId -> nat -> Settled jsstring.
Variable dbUpdates : ChunkId -> Settled unit.
Variable apiKeyEnv : option jsstring.

(** [textPromise] of chunk [i], once settled. *)
Definition textPromise (i : ChunkId) : Settled jsstring :=
  retry (request i) retryDelay retryMaxAttempts.

(** The value of [await textPromise.catch(console.error)]. *)
Definition textOf (i : ChunkId) : option jsstring :=
  caughtText (textPromise i).

Definition step (p : State) (e : Event) : State :=
  match e with
  | AudioChunk i =>
      (* [onAudio(file_i)] up to [await getLangCode()] *)
      if bool_decide (i ∈ created p) then p
      else
        {| session := session p;
           awaiting := awaiting p ++
                       [(i, whisperPrompt (content (session p)))];
           requests := requests p; queue := queue p;
           settled := settled p;
           created := created p ++ [i]; enqueued := enqueued p |}
  | LangCode i savedLanguage =>
      (* [getLangCode()] resolves: [retry(...)] and [withQueue(...)] *)
      match lookupAwaiting i (awaiting p) with
      | None => p
      | Some whisperPrompt =>
          {| session := session p;
             awaiting := filter (fun x => fst x ≠ i) (awaiting p);
             requests := requests p ++
               [(i, whisperOptions apiKeyEnv whisperPrompt savedLanguage)];
             queue := queue p ++ [i];
             settled := settled p;
             created := created p; enqueued := enqueued p ++ [i] |}
      end
  | Settle i =>
      (* the promise returned by [retry] settles *)
      if bool_decide (i ∈ enqueued p) && bool_decide (i ∉ settled p)
      then
        {| session := session p; awaiting := awaiting p;
           requests := requests p; queue := queue p;
           settled := settled p ++ [i];
           created := created p; enqueued := enqueued p |}
      else p
  | RunTask =>
      (* the oldest task runs to its end; it waits for its promise *)
      match queue p with
      | i :: rest =>
          if bool_decide (i ∈ settled p) then
            {| session :=
                 snd (queueTask (textPromise i) (dbUpdates i) (session p));
               awaiting := awaiting p; requests := requests p;
               queue := rest; settled := settled p;
               created := created p; enqueued := enqueued p |}
          else p
      | [] => p
      end
  end.

Definition run (es : list Event) (p : State) : State := foldl step p es.

(** Every [getLangCode()] resolves before any later call of it does. *)
Fixpoint lookupsInOrder (es : list Event) (p : State) : bool :=
  match es with
  | [] => true
  | e :: es' =>
      match e with
      | LangCode i _ =>
          bool_decide (i ∉ (awaiting p).*1)
          || bool_decide (head (awaiting p).*1 = Some i)
      | _ => true
      end && lookupsInOrder es' (step p e)
  end.

(** Nothing is left to do: no call is suspended, no task is queued. *)
Definition drained (p : State) : Prop :=
  awaiting p = [] /\ queue p = [].

(** The texts of the chunks [ids], applied in that order to [c0]. *)
Definition applied (c0 : Transcript.content) (ids : list ChunkId)
    : Transcript.content :=
  foldl applyText c0 (textOf <$> ids).

(** The tasks finished so far are a prefix of those enqueued, and the
    transcript holds exactly their texts, in enqueue order. *)
Definition inQueueOrder (c0 : Transcript.content) (p : State) : Prop :=
  exists finished,
    enqueued p = finished ++ queue p /\
    content (session p) = applied c0 finished.

(** The chunks created are those enqueued followed by those whose
    language lookup is pending, each once. *)
Definition inCreationOrder (p : State) : Prop :=
  created p = enqueued p ++ (awaiting p).*1 /\ NoDup (created p).

End Run.

Definition initial (s : Session) : State :=
  {| session := s; awaiting := []; requests := []; queue := [];
     settled := []; created := []; enqueued := [] |}.

End Pipeline.

(* ===================================================================== *)
(** ** Sample sessions *)
(* ===================================================================== *)

Module Example.
Import JS Transcript Session.

(** A merge that gives every source track a track of its own in the
    merged stream. *)
Definition merge (tab mic : option (list nat)) : list nat :=
  (fun t => 10 + t)%nat <$> (default [] tab ++ default [] mic).

(** Twenty tracks, all live. *)
Definition world : list readyState := replicate 20 live.

(** A tab on track 0 and a microphone on track 1, before [start()]. *)
Definition fresh : Session := init merge (Some [0%nat]) (Some [1%nat]) world.

(** The same session, recording. *)
Definition recordingSession : Session := start fresh.

(** The microphone track has ended while recording. *)
Definition micEnded : Session :=
  runEvents [TrackEnded 1] recordingSession.

(** The tab track has ended while recording. *)
Definition tabEnded : Session :=
  runEvents [TrackEnded 0] recordingSession.

(** A service that answers every request at once: "one" for chunk 1 and
    "two" for any other chunk; database updates that succeed. *)
Definition answers (i k : nat) : Settled jsstring :=
  Fulfilled (str (if (i =? 1)%nat then "one" else "two")).

Definition saved (i : nat) : Settled unit := Fulfilled tt.

(** Chunk 2's request completes before chunk 1's; the queue waits for
    chunk 1 (the first [RunTask] finds its promise pending). *)
Definition completionsOutOfOrder : list Pipeline.Event :=
  [Pipeline.AudioChunk 1; Pipeline.LangCode 1 (str "auto");
   Pipeline.AudioChunk 2; Pipeline.LangCode 2 (str "en");
   Pipeline.Settle 2; Pipeline.RunTask;
   Pipeline.Settle 1; Pipeline.RunTask; Pipeline.RunTask].


End Example.

(* ===================================================================== *)
(** ** captureAudio: the events of one capture *)
(* ===================================================================== *)

Module CaptureRun.
Import JS Capture.

(** What happens to the closures of one [captureAudio] call: the speech
    detector calls [onSpeechStart] or [onSpeechEnd], a pending timer fires,
    the recorder delivers a blob to [onDataAvailable], or the function
    [captureAudio] returned is called. *)
Inductive Event :=
| SpeechStart (now : Z)
| SpeechEnd
| TimerFires
| DataAvailable (data : Blob) (now1 now2 : Z)
| Teardown.

Definition step (s : State) (e : Event) : State :=
  match e with
  | SpeechStart now => onSpeechStart now s
  | SpeechEnd => onSpeechEnd s
  | TimerFires => fireTimer s
  | DataAvailable data now1 now2 => onDataAvailable data now1 now2 s
  | Teardown => teardown s
  end.

Definition run (es : list Event) (s : State) : State := foldl step s es.

(** The bytes the recorder delivered during [es], in order. *)
Definition received (es : list Event) : Blob :=
  concat (omap (fun e => match e with
                         | DataAvailable data _ _ => Some data
                         | _ => None
                         end) es).

(** The recorder made by the latest [recordAudio] call, if any. *)
Definition latestRecorder (s : State) : option nat :=
  match nextRecorder s with
  | O => None
  | S n => Some n
  end.

(** [stopRecord] stops the latest recorder, and every pending timer holds
    [undefined] or the stop function of a recorder that exists. *)
Definition recorderTracked (s : State) : Prop :=
  stopRecord s = latestRecorder s /\
  Forall (fun h => match h with
                   | Some id => (id < nextRecorder s)%nat
                   | None => True
                   end) (timers s).

End CaptureRun.

(* ===================================================================== *)
(** ** recordMeeper: acquiring the streams, and the life of a session *)
(* ===================================================================== *)

Module Lifecycle.
Import JS Transcript Session.

(** Modelled from the spec: the [RecordType] enum of core/types, whose
    source is not part of this development: "recordType ∈ {tab-only,
    mic-only, tab+mic}", under the names the code uses for them. *)
Inductive RecordType := Full | StereoOnly | MicOnly.

#[global] Instance RecordType_eq_dec : EqDecision RecordType.
Proof. solve_decision. Defined.

(** [Promise.all([a, b])], where an element that is not a promise (here the
    literal [null]) is given as [None]: rejected as soon as one element is
    rejected. *)
Definition promiseAll2 {A} (a b : option (Settled A))
    : Settled (option A * option A) :=
  match a, b with
  | Some Rejected, _ | _, Some Rejected => Rejected
  | Some (Fulfilled x), Some (Fulfilled y) => Fulfilled (Some x, Some y)
  | Some (Fulfilled x), None => Fulfilled (Some x, None)
  | None, Some (Fulfilled y) => Fulfilled (None, Some y)
  | None, None => Fulfilled (None, None)
  end.

(** [getStreams(recordType)]; [tabCapture] and [micCapture] are how the
    promises of the functions of these names settle when they are called:
    each resolves with a stream or rejects with a [NoStreamError]. The
    result is the pair [{ tabCaptureStream, micStream }]. *)
Definition getStreams (recordType : RecordType)
    (tabCapture micCapture : Settled (list nat))
    : Settled (option (list nat) * option (list nat)) :=
  promiseAll2
    (if decide (recordType <> MicOnly) then Some tabCapture else None)
    (if decide (recordType <> StereoOnly) then Some micCapture else None).

(** What happens to a session after [recordMeeper] has returned: an event,
    or the poll timer firing. The timer can only fire while it is
    pending. *)
Inductive Step :=
| Happens (e : Event)
| Poll (during : list Event) (r : MicCapture).

Section Steps.

Variable mergeStreams : option (list nat) -> option (list nat) -> list nat.

Definition runStep (s : Session) (st : Step) : Session :=
  match st with
  | Happens e => runEvent s e
  | Poll during r =>
      if pendingPoll s then checkIsStreamIsActive mergeStreams during r s
      else s
  end.

Definition runSteps (sts : list Step) (s : Session) : Session :=
  foldl runStep s sts.

End Steps.

(** No queue task runs in these events. *)
Definition noTask (es : list Event) : Prop :=
  Forall (fun e => match e with TaskRun _ _ => False | _ => True end) es.

(** No queue task runs in these steps, nor while a poll is suspended. *)
Definition noTasks (sts : list Step) : Prop :=
  Forall (fun st => match st with
                    | Happens e => noTask [e]
                    | Poll during _ => noTask during
                    end) sts.

(** While recording exactly the capture that [stopCaptureAudio] tears down
    is running, and none runs otherwise. *)
Definition oneCapture (s : Session) : Prop :=
  if recording s
  then exists id, stopCaptureAudio s = Some id /\ captures s = [id]
  else captures s = [].

(** Every capture that was begun has been torn down or is among the
    running ones. *)
Definition capturesLogged (s : Session) : Prop :=
  forall id m,
    CaptureAudio id m ∈ effects s ->
    StopCaptureAudio id ∈ effects s \/ id ∈ captures s.

(** [c'] keeps every segment of [c] but possibly the last, and has at most
    one segment more. *)
Definition extends (c c' : Transcript.content) : Prop :=
  (length c <= length c' <= S (length c))%nat /\
  take (length c - 1) c' = take (length c - 1) c.

(** [c'] keeps every segment of [c] but possibly the last. *)
Definition grows (c c' : Transcript.content) : Prop :=
  (length c <= length c')%nat /\
  take (length c - 1) c' = take (length c - 1) c.

End Lifecycle.

(* ===================================================================== *)
(** ** The popup and the header of the record page *)
(* ===================================================================== *)

Module Popup.
Import JS Lifecycle.

(** [String.prototype.startsWith] with one argument. *)
Fixpoint startsWith (s search : jsstring) : bool :=
  match search, s with
  | [], _ => true
  | c :: search', d :: s' => (c =? d)%N && startsWith s' search'
  | _ :: _, [] => false
  end.

(** [String.prototype.includes] with one argument: [search] occurs at some
    position of [s]. *)
Fixpoint includes (s search : jsstring) : bool :=
  startsWith s search ||
  match s with
  | [] => false
  | _ :: s' => includes s' search
  end.

Definition meetLikeEntries : list jsstring :=
  [str "teams.live"; str "meet.google"; str "zoom"].

(** [matchRecordType(tab)], on [tab.url], which may be undefined. *)
Definition matchRecordType (url : option jsstring) : RecordType :=
  if existsb (fun entry => match url with
                           | Some u => includes u entry
                           | None => false
                           end) meetLikeEntries
  then Full
  else StereoOnly.

End Popup.

Module RecordHeader.
Import JS Lifecycle.

Definition finishedText : jsstring :=
  str "Transcribing finished. Saving and closing...".
Definition pausedText : jsstring := str "Paused. Click button to continue".
Definition fullText : jsstring :=
  str "Transcribing using tab audio and microphone...".
Definition stereoText : jsstring := str "Transcribing using tab audio...".

(** [statusText] of [RecordHeader]: the first pattern that matches
    [[recordType, recording, streamActive]] decides. [recordType] is
    undefined when the component is rendered without it, [streamActive] is
    [meeper?.stream?.active]. *)
Definition statusText (recordType : option RecordType) (recording : bool)
    (streamActive : option bool) : jsstring :=
  if bool_decide (streamActive = Some false) then finishedText
  else if bool_decide (recording = false) then pausedText
  else if bool_decide (recordType = Some Full) && bool_decide (recording = true)
  then fullText
  else if bool_decide (recordType = Some StereoOnly)
          && bool_decide (recording = true)
  then stereoText
  else [].

End RecordHeader.

Module TornDown.
Import JS.

(** The closures of a capture that has been torn down with audio in its
    buffer: speech started at 1000 ms and ended, the timer stopped recorder
    0, whose blob was buffered; speech started and ended again, and
    [stopCaptureAudio] was called while the second timer was pending. *)
Definition capture : Capture.State :=
  CaptureRun.run
    [CaptureRun.SpeechStart 1000; CaptureRun.SpeechEnd;
     CaptureRun.TimerFires;
     CaptureRun.DataAvailable [1; 2]%N 1600 1600;
     CaptureRun.SpeechStart 3000; CaptureRun.SpeechEnd;
     CaptureRun.Teardown]
    (Capture.captureAudio None).

End TornDown.

Module PipelineRun.
Import JS Pipeline.

(** None of these events is the language lookup of chunk [i] resolving. *)
Definition lookupPending (i : nat) (es : list Event) : Prop :=
  Forall (fun e => match e with
                   | LangCode j _ => j <> i
                   | _ => True
                   end) es.

End PipelineRun.

(* ===================================================================== *)
(** * Properties *)
(* ===================================================================== *)

(** ** Arrays and strings *)

Section ArrayFacts.
Import JS.
Context {A : Type}.
Implicit Types (l : list A) (x v : A).

Lemma index_last l x :
  index (l ++ [x]) (Z.of_nat (length (l ++ [x])) - 1) = Some x.
Proof.
  unfold index. rewrite length_app. simpl.
  destruct (Z.ltb_spec (Z.of_nat (length l + 1) - 1) 0) as [H|H]; [lia|].
  replace (Z.to_nat (Z.of_nat (length l + 1) - 1)) with (length l + 0)%nat
    by lia.
  by rewrite lookup_app_r, Nat.add_comm, Nat.add_sub by lia.
Qed.

Lemma index_nil (i : Z) : index (@nil A) i = None.
Proof. unfold index. by destruct (i <? 0). Qed.

Lemma assign_last l x v :
  assign (l ++ [x]) (Z.of_nat (length (l ++ [x])) - 1) v = l ++ [v].
Proof.
  unfold assign. rewrite length_app. simpl.
  destruct (Z.ltb_spec (Z.of_nat (length l + 1) - 1) 0) as [H|H]; [lia|].
  replace (Z.to_nat (Z.of_nat (length l + 1) - 1)) with (length l + 0)%nat
    by lia.
  by rewrite insert_app_r.
Qed.

(** [slice] with indices inside the array. *)
Lemma slice_inside l (i j : nat) :
  (i <= j <= length l)%nat ->
  slice l (Z.of_nat i) (Z.of_nat j) = take (j - i) (drop i l).
Proof.
  intros H. unfold slice.
  destruct (Z.ltb_spec (Z.of_nat i) 0); [lia|].
  destruct (Z.ltb_spec (Z.of_nat j) 0); [lia|].
  rewrite !Z.min_l by lia.
  by replace (Z.to_nat (Z.of_nat j - Z.of_nat i)) with (j - i)%nat by lia;
    rewrite Nat2Z.id.
Qed.

(** [slice] from a negative index to the end. *)
Lemma slice_from_end l (k : nat) :
  (0 < k)%nat ->
  slice l (- Z.of_nat k) (Z.of_nat (length l)) = drop (length l - k) l.
Proof.
  intros H. unfold slice.
  destruct (Z.ltb_spec (- Z.of_nat k) 0); [|lia].
  destruct (Z.ltb_spec (Z.of_nat (length l)) 0); [lia|].
  rewrite Z.min_l by lia.
  replace (Z.to_nat (Z.max (Z.of_nat (length l) + - Z.of_nat k) 0))
    with (length l - k)%nat by lia.
  apply take_ge. rewrite length_drop. lia.
Qed.

End ArrayFacts.

Section StringFacts.
Import JS.

(** A string that ends with [search] is the rest followed by [search],
    and [slice] recovers the rest. *)
Lemma endsWith_split (s search : jsstring) :
  endsWith s search = true ->
  slice s 0 (Z.of_nat (length s) - Z.of_nat (length search)) ++ search = s.
Proof.
  unfold endsWith. intros H.
  destruct (Z.ltb_spec (Z.of_nat (length s) - Z.of_nat (length search)) 0)
    as [Hlt|Hge]; [done|].
  apply bool_decide_eq_true in H.
  replace (Z.of_nat (length s) - Z.of_nat (length search))
    with (Z.of_nat (length s - length search)) in * by lia.
  rewrite Nat2Z.id in H.
  change 0 with (Z.of_nat 0).
  rewrite (slice_inside s 0 (length s - length search)) by lia.
  rewrite drop_0, Nat.sub_0_r. rewrite <- H at 2. apply take_drop.
Qed.

Lemma endsWith_nonempty (s search : jsstring) :
  endsWith s search = true -> search <> [] -> truthy (Some s) = true.
Proof.
  unfold endsWith. intros H Hs. destruct s as [|c s]; [|done].
  destruct search; [done|]. simpl in H. done.
Qed.

End StringFacts.

(** ** The continuation prompt *)

Section PromptFacts.
Import JS Transcript.

(** With three or more segments the prompt joins the last three. *)
Lemma whisperPrompt_long (c : content) :
  (3 <= length c)%nat -> whisperPrompt c = join newline (lastN 3 c).
Proof.
  intros H. unfold whisperPrompt, lastN. f_equal.
  replace (Z.of_nat (length c) - 3) with (Z.of_nat (length c - 3)) by lia.
  rewrite slice_inside by lia.
  apply take_ge. rewrite length_drop. lia.
Qed.

(** With at most one segment the prompt is the whole transcript. *)
Lemma whisperPrompt_short (c : content) :
  (length c <= 1)%nat -> whisperPrompt c = join newline c.
Proof.
  intros H. destruct c as [|a [|b c]]; simpl in H; try lia; reflexivity.
Qed.

(** With exactly two segments [content.length - 3] is [-1], which [slice]
    reads as "one from the end": the prompt is the last segment alone. *)
Lemma whisperPrompt_two (a b : jsstring) : whisperPrompt [a; b] = b.
Proof. reflexivity. Qed.

(** Off the two-segment case the prompt joins the last [min n 3]
    segments. *)
Lemma whisperPrompt_lastN (c : content) :
  length c <> 2%nat ->
  whisperPrompt c = join newline (lastN (Nat.min (length c) 3) c).
Proof.
  intros H. destruct (le_lt_dec 3 (length c)) as [Hge|Hlt].
  - rewrite Nat.min_r by lia. by apply whisperPrompt_long.
  - rewrite Nat.min_l by lia. unfold lastN. rewrite Nat.sub_diag, drop_0.
    apply whisperPrompt_short. lia.
Qed.

(** The language is passed on unless it is ["auto"]. *)
Lemma languageOption_spec (savedLanguage : jsstring) :
  (savedLanguage = str "auto" -> languageOption savedLanguage = None) /\
  (savedLanguage <> str "auto" ->
   languageOption savedLanguage = Some savedLanguage).
Proof.
  unfold languageOption. split; intros H.
  - by rewrite bool_decide_eq_true_2.
  - by rewrite bool_decide_eq_false_2.
Qed.

(** C9, at a transcript of two segments: the prompt sent with the request
    is the last segment alone, while the newline-join of the last
    [min 2 3 = 2] segments holds both. *)
Theorem C9_prompt_of_two_segments :
  let c := [str "first"; str "second"] in
  whisperPrompt c = str "second" /\
  join newline (lastN (Nat.min (length c) 3) c)
    = str "first" ++ newline ++ str "second" /\
  whisperPrompt c <> join newline (lastN (Nat.min (length c) 3) c).
Proof. cbv zeta. split; [|split]; [reflexivity | reflexivity | discriminate]. Qed.

End PromptFacts.

(** ** The merge rule *)

Section MergeFacts.
Import JS Transcript.

Lemma applyText_undefined (c : content) : applyText c None = c.
Proof. reflexivity. Qed.

Lemma applyText_empty (c : content) : applyText c (Some []) = c.
Proof. reflexivity. Qed.

Lemma applyText_nonempty (c : content) (T : jsstring) :
  T <> [] -> applyText c (Some T) = mergeInto c T.
Proof. intros H. destruct T; [done | reflexivity]. Qed.

(** The continuation branch: the last segment is rewritten in place. *)
Lemma mergeInto_continue (init : content) (lastSeg T : jsstring) :
  endsWith (trim lastSeg) threeDot = true ->
  mergeInto (init ++ [lastSeg]) T =
  init ++ [slice (trim lastSeg) 0 (Z.of_nat (length (trim lastSeg)) - 3)
           ++ space ++ T].
Proof.
  intros H. unfold mergeInto. rewrite index_last.
  change (trim <$> Some lastSeg) with (Some (trim lastSeg)). cbv beta iota zeta.
  rewrite (endsWith_nonempty _ _ H) by done. rewrite H. simpl andb. cbv iota.
  apply assign_last.
Qed.

(** The new-segment branch. *)
Lemma mergeInto_push (c : content) (T : jsstring) :
  (forall lastSeg, last c = Some lastSeg ->
                   endsWith (trim lastSeg) threeDot = false) ->
  mergeInto c T = c ++ [T].
Proof.
  intros H. destruct c as [|x c _] using rev_ind.
  - unfold mergeInto. by rewrite index_nil.
  - unfold mergeInto. rewrite index_last.
    change (trim <$> Some x) with (Some (trim x)). cbv beta iota zeta.
    rewrite (H x) by apply last_snoc. by rewrite andb_false_r.
Qed.

(** The index written by the continuation branch is the last position of
    a non-empty array. *)
Lemma last_index_in_range (c : content) (lastItem : jsstring) :
  index c (Z.of_nat (length c) - 1) = Some lastItem ->
  0 <= Z.of_nat (length c) - 1 < Z.of_nat (length c).
Proof. destruct c; [by rewrite index_nil | simpl; lia]. Qed.

(** C2: for a non-empty text [T], (1) when the trimmed last segment ends
    with ["..."], the marker is stripped and the last segment becomes the
    stripped text, one space and [T], with no segment added; (2) when the
    transcript has no last segment ending (trimmed) with ["..."], [T] is
    appended as a new segment; (3) "Hello, how are you..." followed by
    "is it going" gives "Hello, how are you is it going". *)
Theorem C2_merge_rule (c : content) (T : jsstring) :
  T <> [] ->
  (forall init lastSeg,
      c = init ++ [lastSeg] ->
      endsWith (trim lastSeg) threeDot = true ->
      let stripped :=
        slice (trim lastSeg) 0 (Z.of_nat (length (trim lastSeg)) - 3) in
      stripped ++ threeDot = trim lastSeg /\
      applyText c (Some T) = init ++ [stripped ++ space ++ T] /\
      length (applyText c (Some T)) = length c) /\
  ((forall lastSeg, last c = Some lastSeg ->
                    endsWith (trim lastSeg) threeDot = false) ->
   applyText c (Some T) = c ++ [T] /\
   length (applyText c (Some T)) = S (length c)) /\
  applyText [str "Hello, how are you..."] (Some (str "is it going"))
    = [str "Hello, how are you is it going"].
Proof.
  intros HT. rewrite applyText_nonempty by done. split; [|split].
  - intros init lastSeg -> Hends. cbv zeta.
    split; [exact (endsWith_split _ _ Hends)|].
    rewrite mergeInto_continue by done.
    split; [done|]. rewrite !length_app. reflexivity.
  - intros Hno. rewrite mergeInto_push by done.
    split; [done|]. rewrite length_app. simpl. lia.
  - reflexivity.
Qed.

(** Both branches of the merge rule at the examples of the
    specification. *)
Lemma C2_merge_rule_witness :
  applyText [str "Hello, how are you..."] (Some (str "is it going"))
    = [str "Hello, how are you" ++ space ++ str "is it going"] /\
  applyText [str "Hello there."] (Some (str "Next sentence."))
    = [str "Hello there."; str "Next sentence."].
Proof.
  split.
  - destruct (C2_merge_rule [str "Hello, how are you..."]
                (str "is it going") ltac:(discriminate)) as [H _].
    exact (proj1 (proj2 (H [] (str "Hello, how are you...")
                           eq_refl eq_refl))).
  - destruct (C2_merge_rule [str "Hello there."]
                (str "Next sentence.") ltac:(discriminate)) as [_ [H _]].
    apply H. intros lastSeg Hl.
    injection Hl as <-. reflexivity.
Defined.

End MergeFacts.

(** ** captureAudio *)

Section CaptureFacts.
Import JS Capture.

(** Once recording has started, [startedAt] holds a number. *)
Lemma startRecord_startedAt (now : Z) (s : State) :
  exists t, startedAt (startRecord now s) = Some t.
Proof.
  unfold startRecord, startedAtFalsy. simpl.
  destruct (startedAt s) as [t|]; [destruct (t =? 0)|]; eauto.
Qed.

(** A data event leaves [startedAt] defined. *)
Lemma onDataAvailable_startedAt data now1 now2 (s : State) :
  is_Some (startedAt s) ->
  is_Some (startedAt (onDataAvailable data now1 now2 s)).
Proof.
  intros H. unfold onDataAvailable.
  destruct (belowMinDuration now1 s); simpl; eauto.
Qed.

Lemma onDataAvailable_recorded data now1 now2 (s : State) :
  recorded (onDataAvailable data now1 now2 s) = recorded s ++ data.
Proof.
  unfold onDataAvailable, recorded, emitted.
  destruct (belowMinDuration now1 s); simpl.
  - by rewrite concat_app, <- app_assoc; simpl; rewrite app_nil_r.
  - rewrite omap_app, fmap_app, !concat_app. simpl.
    by rewrite !app_nil_r, concat_app, <- app_assoc; simpl;
      rewrite app_nil_r.
Qed.

(** No audio is lost or handed on twice by data events: the files emitted
    and the buffer together hold every blob received, in order. *)
Lemma dataEvents_recorded evs (s : State) :
  recorded (dataEvents evs s) = recorded s ++ concat (evs.*1.*1).
Proof.
  revert s. induction evs as [|[[data now1] now2] evs IH]; intros s.
  - simpl. by rewrite app_nil_r.
  - unfold dataEvents in *. simpl. rewrite IH, onDataAvailable_recorded.
    by rewrite <- app_assoc.
Qed.

(** C7: on a data event, with [t0] the time of the last flush (or of the
    first recording start), (1) if [minChunkDuration] has elapsed, exactly
    one file holding everything buffered since then, this blob included,
    is handed to [onAudio], the buffer becomes empty and the flush time
    becomes the current time; (2) otherwise the blob joins the buffer and
    nothing is handed on; (3) [minChunkDuration] defaults to 5000 ms. *)
Theorem C7_onDataAvailable (s : State) (data : Blob) (now1 now2 t0 : Z) :
  startedAt s = Some t0 ->
  let s' := onDataAvailable data now1 now2 s in
  (minChunkDuration s <= now1 - t0 ->
     emitted s' = emitted s ++ [chunkFile (chunks s ++ [data])] /\
     fileData (chunkFile (chunks s ++ [data])) = concat (chunks s) ++ data /\
     chunks s' = [] /\
     startedAt s' = Some now2) /\
  (now1 - t0 < minChunkDuration s ->
     chunks s' = chunks s ++ [data] /\
     emitted s' = emitted s /\
     effects s' = effects s /\
     startedAt s' = Some t0) /\
  minChunkDuration (captureAudio None) = 5000.
Proof.
  intros Ht. cbv zeta. unfold onDataAvailable, belowMinDuration.
  rewrite Ht. split; [|split]; [intros H | intros H | reflexivity].
  - destruct (Z.ltb_spec (now1 - t0) (minChunkDuration s)); [lia|]. simpl.
    unfold emitted. simpl. rewrite omap_app. simpl.
    repeat split.
    by rewrite concat_app; simpl; rewrite app_nil_r.
  - destruct (Z.ltb_spec (now1 - t0) (minChunkDuration s)); [|lia]. done.
Qed.

(** A capture that started recording at 1000 ms: a blob at 3000 ms is
    buffered, the next at 6000 ms flushes both. *)
Lemma C7_onDataAvailable_witness :
  let s0 := onSpeechStart 1000 (captureAudio None) in
  let s1 := onDataAvailable [1; 2]%N 3000 3000 s0 in
  let s2 := onDataAvailable [3]%N 6000 6001 s1 in
  (chunks s1 = [[1; 2]%N] /\ emitted s1 = []) /\
  (emitted s2 = [chunkFile [[1; 2]%N; [3]%N]] /\ chunks s2 = [] /\
   startedAt s2 = Some 6001).
Proof.
  cbv zeta. split.
  - pose proof (C7_onDataAvailable (onSpeechStart 1000 (captureAudio None))
                  [1; 2]%N 3000 3000 1000 eq_refl) as [_ [H _]].
    destruct (H ltac:(simpl; lia)) as (H1 & H2 & _). split; [exact H1 | exact H2].
  - pose proof (C7_onDataAvailable
                  (onDataAvailable [1; 2]%N 3000 3000
                     (onSpeechStart 1000 (captureAudio None)))
                  [3]%N 6000 6001 1000 eq_refl) as [H _].
    destruct (H ltac:(simpl; lia)) as (H1 & _ & H2 & H3).
    split; [exact H1 | split; [exact H2 | exact H3]].
Defined.

(** C8 as stated fails, for the timer and for the buffer. Speech starts at
    1000 ms and ends, the timer stops recorder 0 and its blob is buffered;
    speech starts and ends again, and the capture is torn down while the
    second timer is pending. After the teardown (1) that timer is still
    pending and, when it fires, calls the stop function of recorder 1 once
    more; (2) the buffered blob is still in the buffer, and the blob the
    stopped recorder delivers next is handed to [onAudio] together with it:
    the audio buffered at the teardown is transcribed, not discarded. *)
Lemma C8_teardown_keeps_timer_and_buffer :
  let s := CaptureRun.run
             [CaptureRun.SpeechStart 1000; CaptureRun.SpeechEnd;
              CaptureRun.TimerFires;
              CaptureRun.DataAvailable [1; 2]%N 1600 1600;
              CaptureRun.SpeechStart 3000; CaptureRun.SpeechEnd;
              CaptureRun.Teardown]
             (captureAudio None) in
  ~ (timers s = [] /\ effects (fireTimer s) = effects s) /\
  ~ (chunks s = [] /\
     emitted (onDataAvailable [3]%N 6500 6500 s) = emitted s) /\
  effects (fireTimer s) = effects s ++ [StopRecord 1] /\
  chunks s = [[1; 2]%N] /\
  emitted (onDataAvailable [3]%N 6500 6500 s)
  = [chunkFile [[1; 2]%N; [3]%N]].
Proof.
  cbv zeta. split; [intros [H _]; vm_compute in H; discriminate H|].
  split; [intros [H _]; vm_compute in H; discriminate H|].
  split; [vm_compute; reflexivity|]. split; vm_compute; reflexivity.
Qed.

(** C8, amended: the teardown unsubscribes speech detection and calls the
    current recorder's stop function, if any, at once. It cancels no timer
    and discards nothing: the pending speech-end timers, the buffer and the
    flush clock are left as they are, no file is handed on by the teardown
    itself, a timer firing afterwards calls the stop function it holds, and
    a data event afterwards is buffered or flushed, together with what was
    buffered before the teardown, exactly as it would have been without
    the teardown. *)
Theorem C8_teardown (s : State) :
  let s' := teardown s in
  effects s' = effects s ++ StopSpeechDetect ::
               match stopRecord s with
               | Some id => [StopRecord id]
               | None => []
               end /\
  timers s' = timers s /\
  chunks s' = chunks s /\
  startedAt s' = startedAt s /\
  emitted s' = emitted s /\
  effects (fireTimer s') = effects s' ++
               match timers s with
               | Some id :: _ => [StopRecord id]
               | _ => []
               end /\
  timers (fireTimer s') = tail (timers s) /\
  forall data now1 now2,
    emitted (onDataAvailable data now1 now2 s') =
    emitted s ++ (if belowMinDuration now1 s then []
                  else [chunkFile (chunks s ++ [data])]) /\
    emitted (onDataAvailable data now1 now2 s') =
    emitted (onDataAvailable data now1 now2 s).
Proof.
  cbv zeta.
  assert (Hdata : forall x data now1 now2,
             emitted (onDataAvailable data now1 now2 x) =
             emitted x ++ (if belowMinDuration now1 x then []
                           else [chunkFile (chunks x ++ [data])])).
  { intros x data now1 now2. unfold onDataAvailable.
    destruct (belowMinDuration now1 x); unfold emitted; simpl;
      rewrite ?omap_app; simpl; by rewrite ?app_nil_r. }
  assert (Hsame : emitted (teardown s) = emitted s /\
                  chunks (teardown s) = chunks s /\
                  startedAt (teardown s) = startedAt s /\
                  minChunkDuration (teardown s) = minChunkDuration s).
  { unfold teardown, emitted, emit. simpl.
    destruct (stopRecord s); simpl; rewrite ?omap_app; simpl;
      by rewrite ?app_nil_r. }
  destruct Hsame as (He & Hc & Ht & Hm).
  split; [|split; [|split; [done|split; [done|split; [done|]]]]].
  - unfold teardown, emit. simpl.
    destruct (stopRecord s); simpl; by rewrite <- ?app_assoc.
  - unfold teardown, emit. simpl. by destruct (stopRecord s).
  - split; [|split].
    + unfold teardown, fireTimer, emit. simpl.
      destruct (stopRecord s); simpl;
        (destruct (timers s) as [|[h|] rest]; simpl;
         by rewrite ?app_nil_r).
    + unfold teardown, fireTimer, emit. simpl.
      destruct (stopRecord s); simpl; by destruct (timers s).
    + intros data now1 now2. rewrite !Hdata.
      unfold belowMinDuration. by rewrite He, Hc, Ht, Hm.
Qed.

End CaptureFacts.

(** ** The session controller *)

Section SessionFacts.
Import JS Transcript Session.

(** *** Tracks *)

Lemma isLive_insert_ended (σ : TrackStore) (t t' : TrackId) :
  isLive (<[t' := ended]> σ) t = isLive σ t && bool_decide (t <> t').
Proof.
  unfold isLive. destruct (decide (t = t')) as [->|Hne].
  - rewrite (bool_decide_eq_false_2 (t' <> t')) by tauto.
    rewrite andb_false_r. apply bool_decide_eq_false_2.
    destruct (decide (t' < length σ)%nat).
    + by rewrite list_lookup_insert_eq.
    + rewrite list_insert_ge by lia.
      rewrite (lookup_ge_None_2 σ t') by lia. done.
  - rewrite (bool_decide_eq_true_2 (t <> t')) by done.
    rewrite andb_true_r. by rewrite list_lookup_insert_ne.
Qed.

Lemma noRevival_refl σ : noRevival σ σ.
Proof. by intros t. Qed.

Lemma noRevival_trans σ1 σ2 σ3 :
  noRevival σ1 σ2 -> noRevival σ2 σ3 -> noRevival σ1 σ3.
Proof. intros H1 H2 t H. by apply H1, H2. Qed.

Lemma noRevival_insert σ t : noRevival σ (<[t := ended]> σ).
Proof.
  intros t' H. rewrite isLive_insert_ended in H.
  by apply andb_true_iff in H as [H _].
Qed.

Lemma noRevival_inactive σ σ' (m : MediaStream) :
  noRevival σ σ' -> active σ m = false -> active σ' m = false.
Proof.
  intros Hn H. unfold active in *.
  destruct (existsb (isLive σ') m) eqn:E; [|done].
  apply existsb_exists in E as (t & Hin & Hl).
  rewrite <- H. symmetry. apply existsb_exists. eauto.
Qed.

Lemma noRevival_stopAll σ m : noRevival σ (stopAll σ m).
Proof.
  revert σ. induction m as [|t m IH]; intros σ; simpl.
  - apply noRevival_refl.
  - eapply noRevival_trans; [apply noRevival_insert | apply IH].
Qed.

Lemma stopAll_not_live σ m t : t ∈ m -> isLive (stopAll σ m) t = false.
Proof.
  revert σ. induction m as [|t' m IH]; intros σ Hin; [by inversion Hin|].
  simpl. destruct (decide (t = t')) as [->|Hne].
  - destruct (isLive (stopAll (<[t' := ended]> σ) m) t') eqn:E; [|done].
    apply noRevival_stopAll in E. rewrite isLive_insert_ended in E.
    rewrite (bool_decide_eq_false_2 (t' <> t')) in E by tauto.
    by rewrite andb_false_r in E.
  - apply IH. by apply elem_of_cons in Hin as [?|?].
Qed.

Lemma stopAll_inactive σ m : active (stopAll σ m) m = false.
Proof.
  unfold active. destruct (existsb _ m) eqn:E; [|done].
  apply existsb_exists in E as (t & Hin & Hl).
  rewrite stopAll_not_live in Hl; [done|]. by apply list_elem_of_In.
Qed.

(** *** start, pause, stop *)

Lemma trackStops_fields (m : MediaStream) (s : Session) :
  let s' := foldl trackStop s m in
  recording s' = recording s /\ content s' = content s /\
  tabCaptureStream s' = tabCaptureStream s /\ micStream s' = micStream s /\
  stream s' = stream s /\ stopCaptureAudio s' = stopCaptureAudio s /\
  captures s' = captures s /\ nextCapture s' = nextCapture s /\
  pendingPoll s' = pendingPoll s /\
  tracks s' = stopAll (tracks s) m /\
  effects s' = effects s ++ (TrackStop <$> m).
Proof.
  revert s. induction m as [|t m IH]; intros s; simpl.
  - by rewrite app_nil_r.
  - specialize (IH (trackStop s t)). simpl in IH.
    destruct IH as (-> & -> & -> & -> & -> & -> & -> & -> & -> & -> & ->).
    simpl. by rewrite <- app_assoc.
Qed.

Lemma pause_recording (s : Session) : recording (pause s) = false.
Proof.
  unfold pause, callStopCaptureAudio.
  destruct (recording s) eqn:E; simpl; [|done].
  by destruct (stopCaptureAudio s).
Qed.

(** What [pause] leaves alone. *)
Lemma pause_frame (s : Session) :
  content (pause s) = content s /\
  tabCaptureStream (pause s) = tabCaptureStream s /\
  micStream (pause s) = micStream s /\
  stream (pause s) = stream s /\
  tracks (pause s) = tracks s /\
  pendingPoll (pause s) = pendingPoll s.
Proof.
  unfold pause, callStopCaptureAudio.
  destruct (recording s); simpl; [|done].
  by destruct (stopCaptureAudio s).
Qed.

Lemma pause_captures (s : Session) :
  capturesTracked s -> captures (pause s) = [].
Proof.
  unfold capturesTracked, pause, callStopCaptureAudio. intros H.
  destruct (recording s); simpl; [|done].
  destruct (stopCaptureAudio s) as [id|]; simpl in *; rewrite H; [|done].
  rewrite filter_cons, decide_False by tauto. done.
Qed.

Lemma pause_capturesTracked (s : Session) :
  capturesTracked s -> capturesTracked (pause s).
Proof.
  intros H. unfold capturesTracked.
  by rewrite pause_captures, pause_recording.
Qed.

Lemma start_capturesTracked (s : Session) :
  capturesTracked s -> capturesTracked (start s).
Proof.
  unfold capturesTracked, start. intros H.
  destruct (recording s) eqn:E; simpl; [by rewrite E|].
  destruct (active (tracks s) (stream s)); simpl; [|by rewrite E].
  by rewrite H.
Qed.

(** What [start] leaves alone. *)
Lemma start_frame (s : Session) :
  content (start s) = content s /\
  tabCaptureStream (start s) = tabCaptureStream s /\
  micStream (start s) = micStream s /\
  stream (start s) = stream s /\
  tracks (start s) = tracks s /\
  pendingPoll (start s) = pendingPoll s.
Proof.
  unfold start. by destruct (recording s || _).
Qed.

Lemma stop_recording (s : Session) : recording (stop s) = false.
Proof.
  unfold stop. destruct (active _ _).
  - destruct (trackStops_fields (stream (pause s)) (pause s)) as [-> _].
    apply pause_recording.
  - apply pause_recording.
Qed.

(** What [stop] leaves alone, and what it does to the tracks. *)
Lemma stop_frame (s : Session) :
  content (stop s) = content s /\
  tabCaptureStream (stop s) = tabCaptureStream s /\
  micStream (stop s) = micStream s /\
  stream (stop s) = stream s /\
  pendingPoll (stop s) = pendingPoll s /\
  captures (stop s) = captures (pause s) /\
  stopCaptureAudio (stop s) = stopCaptureAudio (pause s) /\
  noRevival (tracks s) (tracks (stop s)).
Proof.
  destruct (pause_frame s) as (Hc & Ht & Hm & Hs & Hσ & Hp).
  unfold stop. destruct (active _ _).
  - destruct (trackStops_fields (stream (pause s)) (pause s))
      as (_ & -> & -> & -> & -> & -> & -> & _ & -> & -> & _).
    rewrite Hσ. repeat split; try done. apply noRevival_stopAll.
  - rewrite Hσ. repeat split; try done. apply noRevival_refl.
Qed.

(** After [stop] every track of the recorded stream has ended. *)
Lemma stop_inactive (s : Session) :
  active (tracks (stop s)) (stream (stop s)) = false.
Proof.
  unfold stop. cbv zeta.
  destruct (active (tracks (pause s)) (stream (pause s))) eqn:E; [|done].
  destruct (trackStops_fields (stream (pause s)) (pause s))
    as (_ & _ & _ & _ & -> & _ & _ & _ & _ & -> & _).
  apply stopAll_inactive.
Qed.

Lemma stop_capturesTracked (s : Session) :
  capturesTracked s -> capturesTracked (stop s).
Proof.
  intros H. unfold capturesTracked.
  destruct (stop_frame s) as (_ & _ & _ & _ & _ & -> & _ & _).
  by rewrite stop_recording, pause_captures.
Qed.

Lemma stop_halted (s : Session) : capturesTracked s -> halted (stop s).
Proof.
  intros H. split; [apply stop_recording|]. split; [|apply stop_inactive].
  destruct (stop_frame s) as (_ & _ & _ & _ & _ & -> & _ & _).
  by apply pause_captures.
Qed.

(** *** The queue task *)

(** The task always completes normally; it changes the transcript as
    [applyText] says and nothing else of the closure. *)
Lemma queueTask_spec (textPromise : Settled jsstring)
    (dbUpdates : Settled unit) (s : Session) :
  queueTask textPromise dbUpdates s =
  (Normal tt,
   {| recording := recording s;
      content := applyText (content s) (caughtText textPromise);
      tabCaptureStream := tabCaptureStream s; micStream := micStream s;
      stream := stream s; stopCaptureAudio := stopCaptureAudio s;
      tracks := tracks s; captures := captures s;
      nextCapture := nextCapture s; pendingPoll := pendingPoll s;
      effects := effects s ++
                 taskEffects (recording s) (content s)
                   (caughtText textPromise) dbUpdates |}).
Proof.
  unfold queueTask, tryCatch, lift, mbind, M_bind, bind, mret, M_ret, ret,
    await, catchConsoleError, applyText, taskEffects.
  destruct s, textPromise as [[|ch T]|], dbUpdates as [[]|];
    simpl; unfold dispatch, emit, set_content; simpl;
    rewrite ?app_nil_r, <- ?app_assoc; reflexivity.
Qed.

(** *** Events *)

Lemma evolves_refl s : evolves s s.
Proof. repeat split; try done. apply noRevival_refl. Qed.

Lemma evolves_trans s1 s2 s3 :
  evolves s1 s2 -> evolves s2 s3 -> evolves s1 s3.
Proof.
  intros (A1 & A2 & A3 & A4 & A5 & A6) (B1 & B2 & B3 & B4 & B5 & B6).
  repeat split; try congruence; [by eapply noRevival_trans | tauto].
Qed.

Lemma start_evolves s : evolves s (start s).
Proof.
  destruct (start_frame s) as (_ & ? & ? & ? & Hσ & ?).
  repeat split; try done; [rewrite Hσ; apply noRevival_refl|].
  apply start_capturesTracked.
Qed.

Lemma pause_evolves s : evolves s (pause s).
Proof.
  destruct (pause_frame s) as (_ & ? & ? & ? & Hσ & ?).
  repeat split; try done; [rewrite Hσ; apply noRevival_refl|].
  apply pause_capturesTracked.
Qed.

Lemma stop_evolves s : evolves s (stop s).
Proof.
  destruct (stop_frame s) as (_ & ? & ? & ? & ? & _ & _ & ?).
  repeat split; try done. apply stop_capturesTracked.
Qed.

Lemma dispatch_evolves s : evolves s (dispatch s).
Proof. repeat split; try done. apply noRevival_refl. Qed.

Lemma emit_evolves e s : evolves s (emit e s).
Proof. repeat split; try done. apply noRevival_refl. Qed.

Lemma runEvent_evolves s e : evolves s (runEvent s e).
Proof.
  destruct e as [| | |t|tp db]; simpl.
  - apply start_evolves.
  - apply pause_evolves.
  - apply stop_evolves.
  - repeat split; try done. apply noRevival_insert.
  - rewrite queueTask_spec. repeat split; try done. apply noRevival_refl.
Qed.

Lemma runEvents_evolves es s : evolves s (runEvents es s).
Proof.
  revert s. induction es as [|e es IH]; intros s; [apply evolves_refl|].
  eapply evolves_trans; [apply runEvent_evolves | apply IH].
Qed.

(** Once halted, a session stays halted and starts no capture. *)
Lemma runEvent_halted s e :
  halted s ->
  halted (runEvent s e) /\ nextCapture (runEvent s e) = nextCapture s.
Proof.
  intros (Hr & Hc & Ha). destruct e as [| | |t|tp db]; simpl.
  - unfold start. by rewrite Hr, Ha.
  - unfold pause. by rewrite Hr.
  - unfold stop, pause. rewrite Hr. simpl. by rewrite Ha.
  - repeat split; try done. simpl.
    eapply noRevival_inactive; [apply noRevival_insert | done].
  - by rewrite queueTask_spec.
Qed.

Lemma runEvents_halted es s :
  halted s ->
  halted (runEvents es s) /\ nextCapture (runEvents es s) = nextCapture s.
Proof.
  revert s. induction es as [|e es IH]; intros s H; [done|].
  destruct (runEvent_halted s e H) as [H1 H2].
  destruct (IH _ H1) as [H3 H4]. split; [done|]. simpl. congruence.
Qed.

(** *** Idempotence *)

(** C6: [start()] while recording and [pause()] while not recording return
    at once: the whole state, the calls made so far included, is unchanged
    (no notification, no capture begun or flushed). Both are idempotent. *)
Theorem C6_start_pause_idempotent (s : Session) :
  (recording s = true -> start s = s) /\
  (recording s = false -> pause s = s) /\
  start (start s) = start s /\
  pause (pause s) = pause s.
Proof.
  assert (Hstart : forall x, recording x = true -> start x = x).
  { intros x H. unfold start. by rewrite H. }
  assert (Hpause : forall x, recording x = false -> pause x = x).
  { intros x H. unfold pause. by rewrite H. }
  split; [apply Hstart|]. split; [apply Hpause|]. split.
  - assert (Hcase : start s = s \/ recording (start s) = true).
    { unfold start.
      destruct (recording s || negb (active (tracks s) (stream s)));
        [by left | by right]. }
    destruct Hcase as [Hs|Hr]; [by rewrite !Hs | by apply Hstart].
  - apply Hpause, pause_recording.
Qed.

(** A recording session ignores [start()], a fresh one ignores
    [pause()]. *)
Lemma C6_start_pause_idempotent_witness :
  start Example.recordingSession = Example.recordingSession /\
  pause Example.fresh = Example.fresh.
Proof.
  split.
  - exact (proj1 (C6_start_pause_idempotent Example.recordingSession)
             eq_refl).
  - exact (proj1 (proj2 (C6_start_pause_idempotent Example.fresh))
             eq_refl).
Defined.

(** C10: a [stop()] on a session that is not recording and whose stream is
    inactive changes nothing, and that is the state every [stop()] leaves:
    a second [stop()] is the identity, with no call and no notification
    added. *)
Theorem C10_stop_twice (s : Session) :
  (recording s = false -> active (tracks s) (stream s) = false ->
   stop s = s) /\
  recording (stop s) = false /\
  active (tracks (stop s)) (stream (stop s)) = false /\
  stop (stop s) = stop s.
Proof.
  assert (H : forall x, recording x = false ->
                        active (tracks x) (stream x) = false -> stop x = x).
  { intros x Hr Ha. unfold stop, pause. rewrite Hr. simpl. by rewrite Ha. }
  split; [apply H|]. split; [apply stop_recording|].
  split; [apply stop_inactive|].
  apply H; [apply stop_recording | apply stop_inactive].
Qed.

(** After the monitor has stopped the session, a [stop()] from the page
    leaves it as it is. *)
Lemma C10_stop_twice_witness :
  stop (stop Example.tabEnded) = stop Example.tabEnded.
Proof.
  exact (proj1 (C10_stop_twice (stop Example.tabEnded)) eq_refl eq_refl).
Defined.

End SessionFacts.

(** ** The stream monitor *)

Section MonitorFacts.
Import JS Transcript Session.

Variable mergeStreams : option (list nat) -> option (list nat) -> list nat.

(** [pause] and [stop] only add calls to those already made. *)
Lemma pause_effects (s : Session) :
  exists post, effects (pause s) = effects s ++ post.
Proof.
  unfold pause, callStopCaptureAudio.
  destruct (recording s); simpl; [|exists []; by rewrite app_nil_r].
  destruct (stopCaptureAudio s); simpl; rewrite <- ?app_assoc; eauto.
Qed.

Lemma stop_effects (s : Session) :
  exists post, effects (stop s) = effects s ++ post.
Proof.
  destruct (pause_effects s) as [post Hp]. unfold stop. cbv zeta.
  destruct (active (tracks (pause s)) (stream (pause s))).
  - destruct (trackStops_fields (stream (pause s)) (pause s))
      as (_ & _ & _ & _ & _ & _ & _ & _ & _ & _ & ->).
    rewrite Hp, <- app_assoc. eauto.
  - eauto.
Qed.

(** A source found inactive makes the monitor stop the session, notify
    and return without scheduling another poll. *)
Lemma checkStreams_inactive (s : Session) :
  sourceActive (tracks s) (tabCaptureStream s) = false \/
  sourceActive (tracks s) (micStream s) = false ->
  checkStreams s = dispatch (stop s).
Proof.
  intros H. unfold checkStreams. simpl.
  destruct H as [-> | ->]; [done | by rewrite andb_false_r].
Qed.

(** With every source active the monitor schedules the next poll. *)
Lemma checkStreams_active (s : Session) :
  sourceActive (tracks s) (tabCaptureStream s) = true ->
  sourceActive (tracks s) (micStream s) = true ->
  checkStreams s = set_pendingPoll true s.
Proof. intros H1 H2. unfold checkStreams. simpl. by rewrite H1, H2. Qed.

(** What the [.then] callback of [micCapture()] leaves alone. *)
Lemma onMicCapture_keeps (m : list nat) (s : Session) :
  let s' := onMicCapture mergeStreams m s in
  tabCaptureStream s' = tabCaptureStream s /\
  pendingPoll s' = pendingPoll s /\
  tracks s' = tracks s /\
  (capturesTracked s -> capturesTracked s').
Proof.
  cbv zeta. unfold onMicCapture.
  destruct (pause_frame s) as (_ & Ht & _ & _ & Hσ & Hp).
  destruct (recording s) eqn:E.
  - match goal with |- context [start ?x] =>
      destruct (start_frame x) as (_ & -> & _ & _ & -> & ->);
      pose proof (start_capturesTracked x) as Hc
    end.
    simpl. repeat split; try done. intros H. apply Hc.
    by apply pause_capturesTracked in H.
  - simpl. repeat split; try done.
Qed.

(** The tracking of captures holds when [recordMeeper] has set up its
    closure and is kept by every poll, so it holds in every state a session
    reaches. *)
Lemma init_capturesTracked tab mic σ :
  capturesTracked (init mergeStreams tab mic σ).
Proof. reflexivity. Qed.

Lemma checkIsStreamIsActive_capturesTracked during r (s : Session) :
  capturesTracked s ->
  capturesTracked (checkIsStreamIsActive mergeStreams during r s).
Proof.
  intros Hc. unfold checkIsStreamIsActive. cbv zeta.
  set (s2 := if micLost (set_pendingPoll false s) then _ else _).
  assert (H2 : capturesTracked s2).
  { subst s2. destruct (micLost (set_pendingPoll false s)); [|done].
    destruct (runEvents_evolves during (set_pendingPoll false s))
      as (_ & _ & _ & _ & _ & Hcap). specialize (Hcap Hc).
    destruct r as [m|]; [|done].
    by apply onMicCapture_keeps. }
  unfold checkStreams. cbv zeta. destruct (negb _); [|done].
  by apply stop_capturesTracked.
Qed.

(** C4 as stated fails: with the microphone track ended and the
    re-acquisition rejected, the poll does not schedule another poll and
    the session stops recording. *)
Lemma C4_failed_reacquisition_stops :
  let s := Example.micEnded in
  let s' := checkIsStreamIsActive Example.merge [] Failed s in
  micLost s = true /\ recording s = true /\
  ~ (pendingPoll s' = true /\ recording s' = recording s).
Proof. cbv zeta. split; [done|]. split; [done|]. intros [H _]. discriminate H. Qed.

(** C4, amended: when the poll finds the microphone inactive and the
    re-acquisition fails, the failure is logged; the microphone is then
    still inactive, so the same poll stops the session, emits the final
    notification and schedules no further poll. *)
Theorem C4_mic_failure_stops (during : list Event) (s : Session)
    (mic : list nat) :
  micStream s = Some mic ->
  active (tracks s) mic = false ->
  let s1 := runEvents during (set_pendingPoll false s) in
  let s' := checkIsStreamIsActive mergeStreams during Failed s in
  s' = dispatch (stop (emit ConsoleError s1)) /\
  (exists post, effects s' = effects s1 ++ ConsoleError :: post) /\
  recording s' = false /\
  pendingPoll s' = false /\
  last (effects s') = Some (Dispatch false (content s')).
Proof.
  intros Hm Ha. cbv zeta.
  set (s1 := runEvents during (set_pendingPoll false s)).
  destruct (runEvents_evolves during (set_pendingPoll false s))
    as (_ & Hmic & _ & Hpoll & Hσ & _). fold s1 in Hmic, Hpoll, Hσ.
  simpl in Hmic, Hpoll, Hσ.
  assert (Hs' : checkIsStreamIsActive mergeStreams during Failed s
                = dispatch (stop (emit ConsoleError s1))).
  { unfold checkIsStreamIsActive, micLost. simpl. rewrite Hm, Ha. simpl.
    fold s1. apply checkStreams_inactive. right. simpl.
    rewrite Hmic, Hm. simpl. by eapply noRevival_inactive. }
  rewrite Hs'. split; [done|].
  destruct (stop_frame (emit ConsoleError s1))
    as (_ & _ & _ & _ & Hp & _ & _ & _).
  destruct (stop_effects (emit ConsoleError s1)) as [post Hpost].
  split; [|split; [|split]].
  - simpl. rewrite Hpost. simpl. rewrite <- !app_assoc. simpl. eauto.
  - simpl. apply stop_recording.
  - simpl. rewrite Hp. simpl. congruence.
  - simpl. rewrite last_snoc. by rewrite stop_recording.
Qed.

(** The state the poll examines after the microphone check keeps the
    tab source, its inactivity, the cleared timer and the tracking of
    captures. *)
Lemma micCheck_keeps (during : list Event) (r : MicCapture) (s : Session)
    (tab : list nat) :
  capturesTracked s ->
  tabCaptureStream s = Some tab ->
  active (tracks s) tab = false ->
  let s0 := set_pendingPoll false s in
  let s2 :=
    if micLost s0 then
      match r with
      | Acquired newMicStream =>
          onMicCapture mergeStreams newMicStream (runEvents during s0)
      | Failed => emit ConsoleError (runEvents during s0)
      end
    else s0 in
  capturesTracked s2 /\ tabCaptureStream s2 = Some tab /\
  active (tracks s2) tab = false /\ pendingPoll s2 = false.
Proof.
  intros Hc Ht Ha. cbv zeta.
  destruct (micLost (set_pendingPoll false s)); [|done].
  destruct (runEvents_evolves during (set_pendingPoll false s))
    as (Htab & _ & _ & Hpoll & Hσ & Hcap).
  simpl in Htab, Hpoll, Hσ.
  specialize (Hcap Hc).
  pose proof (noRevival_inactive _ _ tab Hσ Ha) as Ha1.
  destruct r as [m|].
  - destruct (onMicCapture_keeps m
                (runEvents during (set_pendingPoll false s)))
      as (-> & -> & -> & Hk).
    repeat split; [by apply Hk | congruence | done | done].
  - simpl. repeat split; [done | congruence | done | done].
Qed.

(** *** Captures begun and torn down *)

(** Calls other than [captureAudio] keep the log of captures. *)
Lemma capturesLogged_append (s s' : Session) (post : list Effect) :
  effects s' = effects s ++ post ->
  captures s' = captures s ->
  (forall id m, CaptureAudio id m ∉ post) ->
  Lifecycle.capturesLogged s -> Lifecycle.capturesLogged s'.
Proof.
  intros He Hc Hpost H id m Hin. rewrite He in Hin.
  apply elem_of_app in Hin as [Hin|Hin]; [|by destruct (Hpost id m)].
  destruct (H id m Hin) as [Hs|Hr].
  - left. rewrite He. apply elem_of_app. by left.
  - right. by rewrite Hc.
Qed.

Lemma capturesLogged_emit (e : Effect) (s : Session) :
  (forall id m, e <> CaptureAudio id m) ->
  Lifecycle.capturesLogged s -> Lifecycle.capturesLogged (emit e s).
Proof.
  intros He. apply (capturesLogged_append s (emit e s) [e]); [done..|].
  intros id m Hin. apply list_elem_of_singleton in Hin. by destruct (He id m).
Qed.

Lemma start_capturesLogged (s : Session) :
  Lifecycle.capturesLogged s -> Lifecycle.capturesLogged (start s).
Proof.
  intros H. unfold start. destruct (recording s || _); [done|].
  intros id m Hin. simpl in Hin.
  apply elem_of_app in Hin as [Hin|Hin].
  - apply elem_of_app in Hin as [Hin|Hin].
    + destruct (H id m Hin) as [Hs|Hr].
      * left. simpl. apply elem_of_app. left. apply elem_of_app. by left.
      * right. simpl. apply elem_of_app. by left.
    + apply list_elem_of_singleton in Hin. discriminate Hin.
  - apply list_elem_of_singleton in Hin. injection Hin as -> _.
    right. simpl. apply elem_of_app. right. apply list_elem_of_here.
Qed.

Lemma pause_capturesLogged (s : Session) :
  Lifecycle.capturesLogged s -> Lifecycle.capturesLogged (pause s).
Proof.
  intros H. unfold pause. destruct (negb (recording s)); [done|].
  assert (H1 : Lifecycle.capturesLogged (dispatch (set_recording false s))).
  { apply capturesLogged_emit; [done|].
    by apply (capturesLogged_append s _ []); [by rewrite app_nil_r|done|
      intros ? ? Hn; by apply elem_of_nil in Hn|]. }
  unfold callStopCaptureAudio.
  set (x := dispatch (set_recording false s)) in *.
  destruct (stopCaptureAudio x) as [id0|]; [|done].
  intros id m Hin. simpl in Hin.
  apply elem_of_app in Hin as [Hin|Hin];
    [|apply list_elem_of_singleton in Hin; discriminate Hin].
  destruct (H1 id m Hin) as [Hs|Hr].
  - left. simpl. apply elem_of_app. by left.
  - destruct (decide (id = id0)) as [->|Hne].
    + left. simpl. apply elem_of_app. right. apply list_elem_of_here.
    + right. simpl. apply list_elem_of_filter. by split.
Qed.

Lemma stop_capturesLogged (s : Session) :
  Lifecycle.capturesLogged s -> Lifecycle.capturesLogged (stop s).
Proof.
  intros H. apply pause_capturesLogged in H. unfold stop. cbv zeta.
  destruct (active (tracks (pause s)) (stream (pause s))); [|done].
  destruct (trackStops_fields (stream (pause s)) (pause s))
    as (_ & _ & _ & _ & _ & _ & Hc & _ & _ & _ & He).
  apply (capturesLogged_append (pause s) _ _ He Hc); [|done].
  intros id m Hin. apply list_elem_of_fmap in Hin as (t & Ht & _).
  discriminate Ht.
Qed.

Lemma runEvent_capturesLogged (s : Session) (e : Event) :
  Lifecycle.capturesLogged s -> Lifecycle.capturesLogged (runEvent s e).
Proof.
  destruct e as [| | |t|tp db]; simpl.
  - apply start_capturesLogged.
  - apply pause_capturesLogged.
  - apply stop_capturesLogged.
  - done.
  - rewrite queueTask_spec.
    apply (capturesLogged_append s _
             (taskEffects (recording s) (content s) (caughtText tp) db));
      [done..|].
    intros id m Hin. unfold taskEffects in Hin.
    destruct (caughtText tp) as [[|ch T]|], db as [[]|];
      repeat (apply elem_of_cons in Hin as [Hin|Hin]; [discriminate Hin|]);
      by apply elem_of_nil in Hin.
Qed.

Lemma runEvents_capturesLogged (es : list Event) (s : Session) :
  Lifecycle.capturesLogged s -> Lifecycle.capturesLogged (runEvents es s).
Proof.
  revert s. induction es as [|e es IH]; intros s H; [done|].
  apply IH. by apply runEvent_capturesLogged.
Qed.

Lemma onMicCapture_capturesLogged (m : list nat) (s : Session) :
  Lifecycle.capturesLogged s ->
  Lifecycle.capturesLogged (onMicCapture mergeStreams m s).
Proof.
  intros H. unfold onMicCapture. destruct (recording s).
  - apply start_capturesLogged. by apply pause_capturesLogged in H.
  - by apply capturesLogged_emit.
Qed.

(** The log of captures is kept by the microphone check of a poll. *)
Lemma micCheck_capturesLogged (during : list Event) (r : MicCapture)
    (s : Session) :
  Lifecycle.capturesLogged s ->
  Lifecycle.capturesLogged
    (if micLost (set_pendingPoll false s) then
       match r with
       | Acquired newMicStream =>
           onMicCapture mergeStreams newMicStream
             (runEvents during (set_pendingPoll false s))
       | Failed => emit ConsoleError (runEvents during (set_pendingPoll false s))
       end
     else set_pendingPoll false s).
Proof.
  intros H. destruct (micLost (set_pendingPoll false s)); [|done].
  assert (Lifecycle.capturesLogged
            (runEvents during (set_pendingPoll false s))) as H1
    by (by apply runEvents_capturesLogged).
  destruct r as [m|];
    [by apply onMicCapture_capturesLogged | by apply capturesLogged_emit].
Qed.

(** The log of captures holds when [recordMeeper] has set up its closure
    and is kept by every poll. *)
Lemma init_capturesLogged tab mic σ :
  Lifecycle.capturesLogged (init mergeStreams tab mic σ).
Proof. intros id m Hin. by apply elem_of_nil in Hin. Qed.

Lemma checkIsStreamIsActive_capturesLogged during r (s : Session) :
  Lifecycle.capturesLogged s ->
  Lifecycle.capturesLogged (checkIsStreamIsActive mergeStreams during r s).
Proof.
  intros H. unfold checkIsStreamIsActive. cbv zeta.
  pose proof (micCheck_capturesLogged during r s H) as H2.
  set (s2 := if micLost (set_pendingPoll false s) then _ else _) in *.
  unfold checkStreams. cbv zeta. destruct (negb _); [|done].
  apply capturesLogged_emit; [done|]. by apply stop_capturesLogged.
Qed.

(** C5 as stated fails, for the tracks and for the chunks. The sample
    session is recording when its tab track ends. The poll stops it and
    calls the teardown of capture 0, yet (1) the microphone stream is still
    active afterwards: [stop()] has ended the tracks 10 and 11 of the merged
    stream, not track 1 of the microphone; (2) the teardown does not keep a
    capture from flushing: the closures of a capture torn down with a blob
    in its buffer hand a file to [onAudio] at the next data event. *)
Lemma C5_stop_leaves_microphone_and_buffer :
  let s' := checkIsStreamIsActive Example.merge [] Failed Example.tabEnded in
  (recording s' = false /\ StopCaptureAudio 0 ∈ effects s' /\
   micStream s' = Some [1%nat]) /\
  ~ (forall m, micStream s' = Some m -> active (tracks s') m = false) /\
  ~ (forall data now1 now2,
        Capture.emitted
          (Capture.onDataAvailable data now1 now2 TornDown.capture)
        = Capture.emitted TornDown.capture).
Proof.
  cbv zeta. split; [|split].
  - split; [reflexivity|]. split; [|reflexivity].
    vm_compute. do 3 apply list_elem_of_further. apply list_elem_of_here.
  - intros H. specialize (H [1%nat] eq_refl). vm_compute in H.
    discriminate H.
  - intros H. specialize (H [3]%N 6500 6500). vm_compute in H.
    discriminate H.
Qed.

(** C5, amended: when the tab stream is inactive, the poll stops the
    session whatever the microphone does: [recording] is false, the teardown
    of every capture that was begun has been called and none is left
    running, every track of the current merged stream has ended, the last
    call is the final notification, no poll is scheduled, and whatever
    commands, track ends or queued tasks follow, the session stays not
    recording and begins no capture. *)
Theorem C5_tab_loss_stops (during : list Event) (r : MicCapture)
    (s : Session) (tab : list nat) :
  capturesTracked s ->
  Lifecycle.capturesLogged s ->
  tabCaptureStream s = Some tab ->
  active (tracks s) tab = false ->
  let s' := checkIsStreamIsActive mergeStreams during r s in
  recording s' = false /\
  (forall id m, CaptureAudio id m ∈ effects s' ->
                StopCaptureAudio id ∈ effects s') /\
  captures s' = [] /\
  (forall t, t ∈ stream s' -> isLive (tracks s') t = false) /\
  last (effects s') = Some (Dispatch false (content s')) /\
  pendingPoll s' = false /\
  forall later, let s'' := runEvents later s' in
    recording s'' = false /\ captures s'' = [] /\
    nextCapture s'' = nextCapture s'.
Proof.
  intros Hc Hl Ht Ha. cbv zeta.
  pose proof (micCheck_keeps during r s tab Hc Ht Ha) as H.
  pose proof (checkIsStreamIsActive_capturesLogged during r s Hl) as Hl'.
  cbv zeta in H. unfold checkIsStreamIsActive in *. cbv zeta in *.
  set (s2 := if micLost (set_pendingPoll false s) then _ else _) in *.
  destruct H as (Hc2 & Ht2 & Ha2 & Hp2).
  rewrite checkStreams_inactive in * by (left; rewrite Ht2; exact Ha2).
  destruct (stop_halted s2 Hc2) as (Hr & Hcap & Hina).
  destruct (stop_frame s2) as (_ & _ & _ & _ & Hp & _ & _ & _).
  assert (Hh : halted (dispatch (stop s2))) by done.
  split; [exact Hr|]. split; [|split; [exact Hcap|split; [|split; [|split]]]].
  - intros id m Hin. destruct (Hl' id m Hin) as [Hs|Hrun]; [done|].
    simpl in Hrun. rewrite Hcap in Hrun. by apply elem_of_nil in Hrun.
  - intros t Hin. simpl. unfold active in Hina.
    destruct (isLive (tracks (stop s2)) t) eqn:E; [|done].
    rewrite <- Hina. symmetry. apply existsb_exists.
    exists t. split; [by apply list_elem_of_In | done].
  - simpl. by rewrite last_snoc, Hr.
  - simpl. congruence.
  - intros later. cbv zeta.
    destruct (runEvents_halted later _ Hh) as ((? & ? & _) & ?). done.
Qed.

End MonitorFacts.

(** The sample session whose microphone has ended: the rejected
      re-acquisition is logged and the session is stopped. *)
Lemma C4_mic_failure_stops_witness :
  let s' := Session.checkIsStreamIsActive Example.merge []
              Session.Failed Example.micEnded in
  Session.recording s' = false /\ Session.pendingPoll s' = false.
Proof.
  cbv zeta.
  destruct (C4_mic_failure_stops Example.merge [] Example.micEnded [1%nat]
              eq_refl eq_refl) as (_ & _ & Hr & Hp & _).
  split; [exact Hr | exact Hp].
Defined.


(** The sample session whose tab has ended: the poll stops it although the
    microphone is live, the teardown of capture 0 has been called, and a
    later [start()] changes nothing. *)
Lemma C5_tab_loss_stops_witness :
  let s' := Session.checkIsStreamIsActive Example.merge []
              Session.Failed Example.tabEnded in
  Session.recording s' = false /\ Session.pendingPoll s' = false /\
  Session.StopCaptureAudio 0 ∈ Session.effects s' /\
  Session.captures (Session.runEvents [Session.Start] s') = [].
Proof.
  cbv zeta.
  destruct (C5_tab_loss_stops Example.merge [] Session.Failed
              Example.tabEnded [0%nat] eq_refl) as (Hr & Hs & _ & _ & _ & Hp & Hlater).
  - intros id m Hin. right. vm_compute in Hin.
    apply elem_of_cons in Hin as [Hin|Hin]; [discriminate Hin|].
    apply elem_of_cons in Hin as [Hin|Hin];
      [|by apply elem_of_nil in Hin].
    injection Hin as -> _. apply list_elem_of_here.
  - reflexivity.
  - reflexivity.
  - split; [exact Hr|]. split; [exact Hp|]. split.
    + apply (Hs 0%nat [10%nat; 11%nat]). vm_compute.
      apply list_elem_of_further, list_elem_of_here.
    + exact (proj1 (proj2 (Hlater [Session.Start]))).
Defined.

(** ** Retry and the serial queue *)

Section RetryFacts.
Import JS Transcript Session Pipeline.

Context {A : Type}.
Variable action : nat -> Settled A.

(** The first success within the allowed attempts is the result, and no
    call is made after it. *)
Lemma retryFrom_success (maxAttempts a k : nat) (v : A) :
  (k < maxAttempts)%nat ->
  (forall j, (j < k)%nat -> action (a + j) = Rejected) ->
  action (a + k) = Fulfilled v ->
  retryFrom action a maxAttempts = (Fulfilled v, S (a + k)).
Proof.
  revert a k. induction maxAttempts as [|n IH]; intros a k Hk Hfail Hok;
    [lia|].
  simpl. destruct k as [|k].
  - rewrite Nat.add_0_r in *. by rewrite Hok.
  - rewrite <- (Nat.add_0_r a) at 1. rewrite (Hfail 0%nat) by lia.
    rewrite (IH (S a) k); [f_equal; f_equal; lia | lia | |].
    + intros j Hj. replace (S a + j)%nat with (a + S j)%nat by lia.
      apply Hfail. lia.
    + by replace (S a + k)%nat with (a + S k)%nat by lia.
Qed.

(** When every allowed attempt fails the promise is rejected after
    exactly [maxAttempts] calls. *)
Lemma retryFrom_exhausted (maxAttempts a : nat) :
  (forall j, (j < maxAttempts)%nat -> action (a + j) = Rejected) ->
  retryFrom action a maxAttempts = (Rejected, (a + maxAttempts)%nat).
Proof.
  revert a. induction maxAttempts as [|n IH]; intros a Hfail; simpl.
  - by rewrite Nat.add_0_r.
  - rewrite <- (Nat.add_0_r a) at 1. rewrite (Hfail 0%nat) by lia.
    rewrite IH; [f_equal; lia|].
    intros j Hj. replace (S a + j)%nat with (a + S j)%nat by lia.
    apply Hfail. lia.
Qed.

End RetryFacts.

Section TaskFacts.
Import JS Transcript Session Pipeline.

Lemma notifications_app (es1 es2 : list Effect) :
  notifications (es1 ++ es2) = notifications es1 ++ notifications es2.
Proof. apply omap_app. Qed.

(** C3: (1) when the call fails on attempts 1..k, k < maxAttempts, and
    succeeds with [T] on attempt k+1, the retry stops there and the queue
    task completes normally having applied [T] to the transcript once: for
    a non-empty [T], one merge and one notification (an empty response is
    nothing to append); (2) when the call fails on all [maxAttempts]
    attempts, the task completes normally, its only effect is the logged
    error, the transcript is unchanged, and a later task is applied to
    that unchanged transcript. *)
Theorem C3_bounded_retry (action : nat -> Settled jsstring)
    (maxAttempts : nat) (dbUpdates : Settled unit) (s : Session) :
  let textPromise := retry action retryDelay maxAttempts in
  let done := queueTask textPromise dbUpdates s in
  (forall k T,
      (k < maxAttempts)%nat ->
      (forall j, (j < k)%nat -> action j = Rejected) ->
      action k = Fulfilled T ->
      retryFrom action 0 maxAttempts = (Fulfilled T, S k) /\
      fst done = Normal tt /\
      content (snd done) = applyText (content s) (Some T) /\
      (T <> [] ->
       content (snd done) = mergeInto (content s) T /\
       notifications (effects (snd done)) =
       notifications (effects s) ++ [(recording s, mergeInto (content s) T)]))
  /\
  ((forall j, (j < maxAttempts)%nat -> action j = Rejected) ->
   retryFrom action 0 maxAttempts = (Rejected, maxAttempts) /\
   done = (Normal tt, emit ConsoleError s) /\
   content (snd done) = content s /\
   forall later dbLater,
     content (snd (queueTask later dbLater (snd done)))
     = applyText (content s) (caughtText later)).
Proof.
  cbv zeta. unfold retry. split.
  - intros k T Hk Hfail Hok.
    rewrite (retryFrom_success action maxAttempts 0 k T Hk Hfail Hok).
    split; [done|]. rewrite queueTask_spec. simpl.
    split; [done|]. split; [done|]. intros HT.
    destruct T as [|ch T]; [done|]. split; [done|].
    rewrite notifications_app. f_equal. simpl.
    by destruct dbUpdates.
  - intros Hfail.
    rewrite (retryFrom_exhausted action maxAttempts 0 Hfail).
    split; [done|]. rewrite queueTask_spec. simpl.
    split; [by destruct s|]. split; [done|].
    intros later dbLater. by rewrite queueTask_spec.
Qed.

End TaskFacts.

(** A request rejected once and then answered, within the two attempts
    [onAudio] allows: the answer becomes the first segment. *)
Lemma C3_bounded_retry_witness :
  let action := fun k : nat =>
    if (k =? 0)%nat then Session.Rejected
    else Session.Fulfilled (JS.str "Hello there.") in
  let textPromise :=
    Pipeline.retry action Pipeline.retryDelay Pipeline.retryMaxAttempts in
  Session.content
    (snd (Session.queueTask textPromise (Session.Fulfilled tt) Example.fresh))
  = [JS.str "Hello there."].
Proof.
  cbv zeta.
  pose proof (C3_bounded_retry
    (fun k : nat => if (k =? 0)%nat then Session.Rejected
                    else Session.Fulfilled (JS.str "Hello there."))
    Pipeline.retryMaxAttempts (Session.Fulfilled tt) Example.fresh) as [H _].
  destruct (H 1%nat (JS.str "Hello there.")) as (_ & _ & Hc & _).
  - unfold Pipeline.retryMaxAttempts. lia.
  - intros j Hj. assert (j = 0%nat) as -> by lia. reflexivity.
  - reflexivity.
  - exact Hc.
Defined.

(** ** Ordered application of transcription results *)

Section PipelineFacts.
Import JS Transcript Session Pipeline.

Variable request : nat -> nat -> Settled jsstring.
Variable dbUpdates : nat -> Settled unit.
Variable apiKeyEnv : option jsstring.

Abbreviation step := (Pipeline.step request dbUpdates apiKeyEnv).
Abbreviation run := (Pipeline.run request dbUpdates apiKeyEnv).
Abbreviation textOf := (Pipeline.textOf request).
Abbreviation applied := (Pipeline.applied request).
Abbreviation inQueueOrder := (Pipeline.inQueueOrder request).

Lemma step_inQueueOrder c0 p e :
  inQueueOrder c0 p -> inQueueOrder c0 (step p e).
Proof.
  intros (finished & Henq & Hc). destruct e as [i|i lang|i|]; simpl.
  - destruct (bool_decide _); by exists finished.
  - destruct (lookupAwaiting i (awaiting p)); [|by exists finished].
    exists finished. simpl. by rewrite Henq, app_assoc.
  - destruct (_ && _); by exists finished.
  - destruct (queue p) as [|i rest] eqn:Hq;
      [exists finished; by rewrite Hq|].
    destruct (bool_decide _); [|exists finished; by rewrite Hq].
    exists (finished ++ [i]). simpl. split.
    + by rewrite Henq, <- app_assoc.
    + rewrite queueTask_spec. simpl. unfold applied in *.
      by rewrite fmap_app, foldl_app, <- Hc.
Qed.

Lemma run_inQueueOrder c0 es p :
  inQueueOrder c0 p -> inQueueOrder c0 (run es p).
Proof.
  revert p. induction es as [|e es IH]; intros p H; [done|].
  apply IH. by apply step_inQueueOrder.
Qed.

Lemma lookupAwaiting_None i (l : list (nat * jsstring)) :
  lookupAwaiting i l = None -> i ∉ l.*1.
Proof.
  unfold lookupAwaiting. induction l as [|[j w] l IH]; simpl; intros H.
  - apply not_elem_of_nil.
  - rewrite filter_cons in H. simpl in H.
    destruct (decide (j = i)) as [->|Hne]; [done|].
    apply not_elem_of_cons. split; [done | by apply IH].
Qed.

Lemma filter_awaiting_head i w (l : list (nat * jsstring)) :
  i ∉ l.*1 -> filter (fun x => fst x <> i) ((i, w) :: l) = l.
Proof.
  intros H. rewrite filter_cons. simpl. rewrite decide_False by tauto.
  induction l as [|[j v] l IH]; [done|].
  simpl in H. apply not_elem_of_cons in H as [Hne Hl].
  rewrite filter_cons. simpl. rewrite decide_True by done.
  by rewrite IH.
Qed.

Lemma step_inCreationOrder p e es :
  lookupsInOrder request dbUpdates apiKeyEnv (e :: es) p = true ->
  inCreationOrder p -> inCreationOrder (step p e).
Proof.
  intros Hord (Hcr & Hnd). simpl in Hord.
  apply andb_true_iff in Hord as [Hord _].
  destruct e as [i|i lang|i|]; simpl.
  - destruct (bool_decide_reflect (i ∈ created p)) as [Hin|Hnin];
      [done|]. split; simpl.
    + by rewrite Hcr, fmap_app, app_assoc.
    + apply NoDup_app. split; [done|]. split.
      * intros x Hx Hx'. apply list_elem_of_singleton in Hx'. by subst.
      * apply NoDup_singleton.
  - destruct (lookupAwaiting i (awaiting p)) as [w|] eqn:Hl; [|done].
    apply orb_true_iff in Hord as [Hord|Hord].
    { apply bool_decide_eq_true in Hord. exfalso.
      unfold lookupAwaiting in Hl.
      destruct (filter _ (awaiting p)) as [|[j v] l] eqn:Hf; [done|].
      assert ((j, v) ∈ filter (fun x => fst x = i) (awaiting p)) as Hin
        by (rewrite Hf; apply list_elem_of_here).
      apply list_elem_of_filter in Hin as [Hj Hin]. simpl in Hj. subst j.
      apply Hord. apply list_elem_of_fmap. by exists (i, v). }
    apply bool_decide_eq_true in Hord.
    destruct (awaiting p) as [|[j v] rest] eqn:Haw; [done|].
    simpl in Hord. injection Hord as ->.
    assert (i ∉ rest.*1) as Hfresh.
    { rewrite Hcr in Hnd. apply NoDup_app in Hnd as (_ & _ & Hnd).
      simpl in Hnd. by apply NoDup_cons in Hnd as [? _]. }
    split; simpl; [|done].
    rewrite filter_awaiting_head by done.
    rewrite Hcr. simpl. by rewrite <- app_assoc.
  - by destruct (_ && _).
  - destruct (queue p) as [|i rest]; [done|]. by destruct (bool_decide _).
Qed.

Lemma run_inCreationOrder es p :
  lookupsInOrder request dbUpdates apiKeyEnv es p = true ->
  inCreationOrder p -> inCreationOrder (run es p).
Proof.
  revert p. induction es as [|e es IH]; intros p Hord H; [done|].
  simpl. apply IH.
  - simpl in Hord. by apply andb_true_iff in Hord as [_ ?].
  - by eapply step_inCreationOrder.
Qed.

(** For every interleaving of chunk arrivals, language lookups, request
    completions and task runs, the tasks finished are a prefix of the tasks
    in the order they were handed to the queue and the transcript is their
    texts merged in that order, whatever the order in which the requests
    completed. When the language lookups resolve in the order they were
    started, the queue order is the chunk creation order, and once
    everything is drained the transcript is every chunk's text merged in
    creation order. *)
Theorem transcript_in_queue_order (s0 : Session) (es : list Event) :
  let p := run es (initial s0) in
  inQueueOrder (content s0) p /\
  (queue p = [] -> content (session p) = applied (content s0) (enqueued p))
  /\
  (lookupsInOrder request dbUpdates apiKeyEnv es (initial s0) = true ->
   created p = enqueued p ++ (awaiting p).*1 /\
   (drained p ->
    content (session p) = applied (content s0) (created p))).
Proof.
  cbv zeta.
  assert (Hq : inQueueOrder (content s0) (run es (initial s0))).
  { apply run_inQueueOrder. by exists []. }
  split; [done|]. split.
  - intros Hempty. destruct Hq as (finished & Henq & Hc).
    by rewrite Henq, Hempty, app_nil_r.
  - intros Hord.
    destruct (run_inCreationOrder es (initial s0) Hord) as [Hcr _].
    { split; [done | apply NoDup_nil_2]. }
    split; [done|]. intros [Haw Hempty].
    destruct Hq as (finished & Henq & Hc).
    by rewrite Hcr, Haw, Henq, Hempty, !app_nil_r.
Qed.

End PipelineFacts.


(** Chunk 2's request completes first, yet the drained transcript reads
    "one", "two". *)
Lemma transcript_in_queue_order_example :
  let p := Pipeline.run Example.answers Example.saved None
             Example.completionsOutOfOrder (Pipeline.initial Example.fresh) in
  Pipeline.settled p = [2%nat; 1%nat] /\
  Session.content (Pipeline.session p)
  = Pipeline.applied Example.answers [] [1%nat; 2%nat].
Proof.
  cbv zeta. split; [reflexivity|].
  destruct (transcript_in_queue_order Example.answers Example.saved None
              Example.fresh Example.completionsOutOfOrder) as (_ & _ & H).
  destruct (H eq_refl) as [_ Hd].
  exact (Hd (conj eq_refl eq_refl)).
Defined.

(** ** captureAudio over its events *)

Section CaptureRunFacts.
Import JS Capture CaptureRun.

Lemma emitted_emit (e : Effect) (s : State) :
  (forall f, e <> OnAudio f) -> emitted (emit e s) = emitted s.
Proof.
  intros H. unfold emitted, emit. simpl. rewrite omap_app. simpl.
  destruct e; rewrite ?app_nil_r; try done. by destruct (H f).
Qed.

(** Only a data event changes what has been recorded. *)
Lemma step_recorded (s : State) (e : Event) :
  recorded (step s e) =
  recorded s ++ match e with DataAvailable data _ _ => data | _ => [] end.
Proof.
  destruct e as [now| | |data now1 now2|]; simpl; rewrite ?app_nil_r.
  - unfold recorded, onSpeechStart, startRecord, emitted. simpl.
    rewrite !omap_app. simpl. by rewrite !app_nil_r.
  - unfold recorded, onSpeechEnd, emitted. simpl.
    rewrite !omap_app. simpl. by rewrite !app_nil_r.
  - unfold recorded, fireTimer, emitted.
    destruct (timers s) as [|[id|] rest]; simpl; try done;
      rewrite !omap_app; simpl; by rewrite !app_nil_r.
  - apply onDataAvailable_recorded.
  - unfold recorded, teardown, emitted. simpl.
    destruct (stopRecord s); simpl; rewrite !omap_app; simpl;
      by rewrite !app_nil_r.
Qed.

(** X1: whatever the speech detector, the timers, the recorder and the
    teardown do, and in whatever order, the files handed to [onAudio]
    followed by the buffer hold exactly the bytes the recorder delivered,
    in the order it delivered them: no audio is dropped, repeated or
    reordered by [captureAudio] itself. *)
Theorem X1_audio_conserved (es : list Event) (s : State) :
  recorded (run es s) = recorded s ++ received es /\
  forall minChunkDuration,
    recorded (run es (captureAudio minChunkDuration)) = received es.
Proof.
  assert (H : forall es s, recorded (run es s) = recorded s ++ received es).
  { clear. induction es as [|e es IH]; intros s.
    - simpl. by rewrite app_nil_r.
    - unfold run in *. simpl. rewrite IH, step_recorded, <- app_assoc.
      f_equal. unfold received. simpl. by destruct e. }
  split; [apply H|]. intros m. by rewrite H.
Qed.

(** X2: a speech start after the first one does not restart the flush
    clock: [startedAt] (when it is not 0) and the buffer are kept, so the
    next data event is flushed or buffered according to the time elapsed
    since the previous flush, pauses in speech included. *)
Theorem X2_speech_start_keeps_clock (s : State) (t now : Z) (data : Blob)
    (now1 now2 : Z) :
  startedAt s = Some t ->
  t <> 0 ->
  let s1 := onSpeechStart now s in
  startedAt s1 = Some t /\
  chunks s1 = chunks s /\
  emitted (onDataAvailable data now1 now2 s1) =
  emitted s ++ if now1 - t <? minChunkDuration s then []
               else [chunkFile (chunks s ++ [data])].
Proof.
  intros Ht Hne. cbv zeta.
  assert (H1 : startedAt (onSpeechStart now s) = Some t).
  { unfold onSpeechStart, startRecord, startedAtFalsy. simpl. rewrite Ht.
    by destruct (Z.eqb_spec t 0). }
  split; [done|]. split; [done|].
  unfold onDataAvailable, belowMinDuration. rewrite H1.
  change (minChunkDuration (onSpeechStart now s)) with (minChunkDuration s).
  destruct (now1 - t <? minChunkDuration s); unfold emitted; simpl;
    rewrite !omap_app; simpl; by rewrite ?app_nil_r.
Qed.

(** A capture that started at 1000 ms with one blob buffered: speech
    starting again at 4000 ms keeps the clock, and a blob at 6000 ms is
    flushed with the first. *)
Lemma X2_speech_start_keeps_clock_witness :
  let s := onDataAvailable [1]%N 2000 2000
             (onSpeechStart 1000 (captureAudio None)) in
  emitted (onDataAvailable [2]%N 6000 6000 (onSpeechStart 4000 s))
  = [chunkFile [[1]%N; [2]%N]].
Proof.
  cbv zeta.
  exact (proj2 (proj2 (X2_speech_start_keeps_clock
    (onDataAvailable [1]%N 2000 2000 (onSpeechStart 1000 (captureAudio None)))
    1000 4000 [2]%N 6000 6000 eq_refl ltac:(lia)))).
Defined.

Lemma step_recorderTracked (s : State) (e : Event) :
  recorderTracked s -> recorderTracked (step s e).
Proof.
  intros [Hs Ht].
  destruct e as [now| | |data now1 now2|]; simpl.
  - split; [done|]. simpl.
    eapply Forall_impl; [exact Ht|]. intros [id|]; simpl; lia.
  - split; [done|]. simpl. apply Forall_app. split; [done|].
    apply Forall_singleton. rewrite Hs. unfold latestRecorder.
    destruct (nextRecorder s); [done | lia].
  - unfold fireTimer. destruct (timers s) as [|h rest] eqn:E.
    + split; [done|]. rewrite E. apply Forall_nil_2.
    + split; [done|]. simpl. by apply Forall_cons in Ht as [_ ?].
  - unfold onDataAvailable. by destruct (belowMinDuration now1 s).
  - unfold teardown. simpl.
    destruct (stopRecord s) eqn:E;
      (split; [change (stopRecord s = latestRecorder s); by rewrite E
              | exact Ht]).
Qed.

Lemma run_recorderTracked (es : list Event) (s : State) :
  recorderTracked s -> recorderTracked (run es s).
Proof.
  revert s. induction es as [|e es IH]; intros s H; [done|].
  apply IH. by apply step_recorderTracked.
Qed.

Lemma captureAudio_recorderTracked m : recorderTracked (captureAudio m).
Proof. split; [done | apply Forall_nil_2]. Qed.

(** X3: in every state a capture reaches, [stopRecord] is the stop function
    of the latest recorder. A speech start makes a new recorder without
    stopping the current one, so when speech starts while a recorder is
    current and the capture is then torn down, only the new recorder is
    stopped: the earlier one gets no stop call from the teardown. *)
Theorem X3_teardown_stops_latest_only (es : list Event)
    (minChunkDuration : option Z) (now : Z) :
  let s := run es (captureAudio minChunkDuration) in
  let n := nextRecorder s in
  stopRecord s = latestRecorder s /\
  effects (teardown (onSpeechStart now s)) =
    effects s ++ [ConsoleInfo (str "[Speech] started."); RecordAudio n;
                  StopSpeechDetect; StopRecord n] /\
  forall id, stopRecord s = Some id -> id <> n.
Proof.
  cbv zeta.
  destruct (run_recorderTracked es _ (captureAudio_recorderTracked
                                        minChunkDuration)) as [Hs _].
  split; [done|]. split.
  - unfold teardown, onSpeechStart, startRecord, emit. simpl.
    by rewrite <- !app_assoc.
  - intros id Hid. rewrite Hs in Hid. unfold latestRecorder in Hid.
    destruct (nextRecorder _); [done|]. injection Hid as <-. lia.
Qed.

(** X4: the timer set at a speech end stops the recorder that was current
    at that moment: when speech starts again before the timer fires, the
    timer stops the earlier recorder and the new one stays current. *)
Theorem X4_timer_stops_recorder_of_speech_end (es : list Event)
    (minChunkDuration : option Z) (now : Z) (id : nat) :
  let s := run es (captureAudio minChunkDuration) in
  timers s = [] ->
  stopRecord s = Some id ->
  let n := nextRecorder s in
  let s' := fireTimer (onSpeechStart now (onSpeechEnd s)) in
  effects s' =
    effects s ++ [ConsoleInfo (str "[Speech] end.");
                  ConsoleInfo (str "[Speech] started.");
                  RecordAudio n; StopRecord id] /\
  stopRecord s' = Some n /\ id <> n /\ timers s' = [].
Proof.
  cbv zeta. intros Ht Hid.
  destruct (run_recorderTracked es _ (captureAudio_recorderTracked
                                        minChunkDuration)) as [Hs _].
  unfold fireTimer, onSpeechStart, startRecord, onSpeechEnd, emit. simpl.
  rewrite Ht, Hid. simpl. rewrite <- !app_assoc. simpl.
  repeat split. rewrite Hs in Hid. unfold latestRecorder in Hid.
  destruct (nextRecorder _); [done|]. injection Hid as <-. lia.
Qed.

End CaptureRunFacts.

(** Speech starts, ends, and starts again before the timer fires: the timer
    stops recorder 0 and recorder 1 stays current. *)
Lemma X4_timer_stops_recorder_of_speech_end_witness :
  let s := Capture.fireTimer
             (Capture.onSpeechStart 2020
                (Capture.onSpeechEnd
                   (CaptureRun.run [CaptureRun.SpeechStart 1000]
                      (Capture.captureAudio None)))) in
  Capture.stopRecord s = Some 1%nat /\
  list.last (Capture.effects s) = Some (Capture.StopRecord 0).
Proof.
  cbv zeta.
  destruct (X4_timer_stops_recorder_of_speech_end
              [CaptureRun.SpeechStart 1000] None 2020 0%nat eq_refl eq_refl)
    as (He & Hs & _ & _).
  split; [exact Hs|]. rewrite He. reflexivity.
Defined.

(** ** The life of a session *)

Section LifecycleFacts.
Import JS Transcript Session Lifecycle.

Variable mergeStreams : option (list nat) -> option (list nat) -> list nat.

Abbreviation poll := (checkIsStreamIsActive mergeStreams).
Abbreviation steps := (runSteps mergeStreams).

(** *** One capture at a time *)

Lemma oneCapture_capturesTracked (s : Session) :
  oneCapture s -> capturesTracked s.
Proof.
  unfold oneCapture, capturesTracked.
  destruct (recording s); [|done]. by intros (id & -> & ->).
Qed.

(** [oneCapture] looks at three variables only. *)
Lemma oneCapture_same (s s' : Session) :
  recording s' = recording s ->
  stopCaptureAudio s' = stopCaptureAudio s ->
  captures s' = captures s ->
  oneCapture s -> oneCapture s'.
Proof. unfold oneCapture. by intros -> -> ->. Qed.

Lemma start_oneCapture (s : Session) : oneCapture s -> oneCapture (start s).
Proof.
  unfold oneCapture, start. intros H.
  destruct (recording s) eqn:E; simpl; [by rewrite E|].
  destruct (active (tracks s) (stream s)); simpl; [|by rewrite E].
  rewrite H. eauto.
Qed.

Lemma pause_oneCapture (s : Session) : oneCapture s -> oneCapture (pause s).
Proof.
  unfold oneCapture, pause, callStopCaptureAudio. intros H.
  destruct (recording s) eqn:E; simpl; [|by rewrite E].
  destruct H as (id & -> & ->). simpl.
  rewrite filter_cons, decide_False by tauto. done.
Qed.

Lemma stop_oneCapture (s : Session) : oneCapture s -> oneCapture (stop s).
Proof.
  intros H. apply pause_oneCapture in H. unfold stop. cbv zeta.
  destruct (active (tracks (pause s)) (stream (pause s))); [|done].
  destruct (trackStops_fields (stream (pause s)) (pause s))
    as (? & _ & _ & _ & _ & ? & ? & _).
  by eapply oneCapture_same.
Qed.

Lemma runEvent_oneCapture (s : Session) (e : Event) :
  oneCapture s -> oneCapture (runEvent s e).
Proof.
  destruct e as [| | |t|tp db]; simpl.
  - apply start_oneCapture.
  - apply pause_oneCapture.
  - apply stop_oneCapture.
  - done.
  - rewrite queueTask_spec. done.
Qed.

Lemma runEvents_oneCapture (es : list Event) (s : Session) :
  oneCapture s -> oneCapture (runEvents es s).
Proof.
  revert s. induction es as [|e es IH]; intros s H; [done|].
  apply IH. by apply runEvent_oneCapture.
Qed.

Lemma onMicCapture_oneCapture (m : list nat) (s : Session) :
  oneCapture s -> oneCapture (onMicCapture mergeStreams m s).
Proof.
  intros H. unfold onMicCapture. destruct (recording s) eqn:E.
  - apply start_oneCapture.
    eapply (oneCapture_same (pause s)); [done..|].
    by apply pause_oneCapture.
  - eapply (oneCapture_same s); done.
Qed.

(** A poll keeps the invariant, and it leaves no timer pending only when it
    has stopped the session. *)
Lemma poll_oneCapture during r (s : Session) :
  oneCapture s ->
  oneCapture (poll during r s) /\
  (pendingPoll (poll during r s) = false -> halted (poll during r s)).
Proof.
  intros H. unfold checkIsStreamIsActive. cbv zeta.
  set (s2 := if micLost (set_pendingPoll false s) then _ else _).
  assert (H2 : oneCapture s2).
  { subst s2. destruct (micLost (set_pendingPoll false s)); [|done].
    assert (oneCapture (runEvents during (set_pendingPoll false s))) as H1
      by (by apply runEvents_oneCapture).
    destruct r as [m|]; [by apply onMicCapture_oneCapture | done]. }
  unfold checkStreams. cbv zeta. destruct (negb _).
  - split.
    + eapply (oneCapture_same (stop s2)); [done..|].
      by apply stop_oneCapture.
    + intros _. apply (stop_halted s2).
      by apply oneCapture_capturesTracked.
  - split; [done|]. simpl. discriminate.
Qed.

Lemma runStep_invariant (s : Session) (st : Step) :
  oneCapture s /\ (pendingPoll s = false -> halted s) ->
  oneCapture (runStep mergeStreams s st) /\
  (pendingPoll (runStep mergeStreams s st) = false ->
   halted (runStep mergeStreams s st)).
Proof.
  intros [H1 H2]. destruct st as [e|during r]; simpl.
  - split; [by apply runEvent_oneCapture|].
    destruct (runEvent_evolves s e) as (_ & _ & _ & Hp & _).
    rewrite Hp. intros Hf. by apply runEvent_halted, H2.
  - destruct (pendingPoll s) eqn:E; [by apply poll_oneCapture|].
    split; [done|]. intros _. by apply H2.
Qed.

(** X5: in every state a session reaches after [recordMeeper], through any
    commands, track ends, queue tasks and polls, exactly the capture that
    [stopCaptureAudio] tears down runs while [recording] is true and none
    runs while it is false; and the monitor has no poll pending only when
    the session is stopped for good (not recording, stream inactive). *)
Theorem X5_one_capture_while_recording (tab mic : option (list nat))
    (σ : list readyState) (during : list Event) (r : MicCapture)
    (sts : list Step) :
  let s := steps sts (recordMeeper mergeStreams tab mic σ during r) in
  (if recording s
   then exists id, stopCaptureAudio s = Some id /\ captures s = [id]
   else captures s = []) /\
  (length (captures s) <= 1)%nat /\
  (pendingPoll s = false ->
   recording s = false /\ active (tracks s) (stream s) = false).
Proof.
  cbv zeta.
  assert (H0 : oneCapture (recordMeeper mergeStreams tab mic σ during r) /\
               (pendingPoll (recordMeeper mergeStreams tab mic σ during r)
                = false ->
                halted (recordMeeper mergeStreams tab mic σ during r))).
  { apply poll_oneCapture, start_oneCapture. reflexivity. }
  assert (H : forall sts s,
             oneCapture s /\ (pendingPoll s = false -> halted s) ->
             oneCapture (steps sts s) /\
             (pendingPoll (steps sts s) = false -> halted (steps sts s))).
  { clear. induction sts as [|st sts IH]; intros s Hs; [done|].
    apply IH. by apply runStep_invariant. }
  destruct (H sts _ H0) as [H1 H2]. split; [exact H1|]. split.
  - unfold oneCapture in H1. destruct (recording _).
    + destruct H1 as (id & _ & ->). simpl. lia.
    + rewrite H1. simpl. lia.
  - intros Hp. destruct (H2 Hp) as (? & _ & ?). done.
Qed.

(** *** The monitor on a healthy session *)

(** X6: when every source the session has is active, a poll does nothing
    but schedule the next poll: no call is made, no notification is sent,
    and the outcome of a microphone capture plays no part. *)
Theorem X6_healthy_poll (during : list Event) (r : MicCapture)
    (s : Session) :
  sourceActive (tracks s) (tabCaptureStream s) = true ->
  sourceActive (tracks s) (micStream s) = true ->
  poll during r s = set_pendingPoll true s.
Proof.
  intros Ht Hm. unfold checkIsStreamIsActive, micLost. simpl.
  unfold sourceActive in Hm. destruct (micStream s) as [m|] eqn:E.
  - rewrite Hm. simpl. rewrite checkStreams_active; simpl;
      [done | done | by rewrite E].
  - rewrite checkStreams_active; simpl; [done | done | by rewrite E].
Qed.

(** *** After stop *)

(** X12: [stop()] is terminal for the commands: after it, [start()] does
    not start (the stream is inactive) and [pause()] has nothing to pause;
    both leave the state, calls included, as [stop()] left it. *)
Theorem X12_stop_is_terminal (s : Session) :
  start (stop s) = stop s /\ pause (stop s) = stop s.
Proof.
  split.
  - unfold start. by rewrite stop_recording, stop_inactive.
  - unfold pause. by rewrite stop_recording.
Qed.

(** *** Which tracks stop() ends *)

Lemma stopAll_lookup_other (σ : list readyState) (m : list nat) (t : nat) :
  t ∉ m -> stopAll σ m !! t = σ !! t.
Proof.
  revert σ. induction m as [|t' m IH]; intros σ Hn; [done|].
  apply not_elem_of_cons in Hn as [Hne Hn]. simpl.
  rewrite IH by done. by apply list_lookup_insert_ne.
Qed.

(** X8: [stop()] ends the tracks of the current merged stream and no
    other: a track that is not one of [stream.getTracks()], such as a track
    of the tab or microphone source that the merged stream does not share,
    keeps its state; [start()] and [pause()] end no track at all. *)
Theorem X8_stop_ends_merged_tracks_only (s : Session) (t : nat) :
  t ∉ stream s ->
  tracks (stop s) !! t = tracks s !! t /\
  tracks (start s) = tracks s /\
  tracks (pause s) = tracks s.
Proof.
  intros Hn.
  destruct (pause_frame s) as (_ & _ & _ & Hs & Hσ & _).
  destruct (start_frame s) as (_ & _ & _ & _ & Hσ' & _).
  split; [|done]. unfold stop. cbv zeta.
  destruct (active (tracks (pause s)) (stream (pause s))).
  - destruct (trackStops_fields (stream (pause s)) (pause s))
      as (_ & _ & _ & _ & _ & _ & _ & _ & _ & -> & _).
    rewrite Hs, Hσ. by apply stopAll_lookup_other.
  - by rewrite Hσ.
Qed.

End LifecycleFacts.

(** The sample session is recording when [recordMeeper] returns, with
    capture 0 running and a poll pending; after a pause nothing runs. *)
Lemma X5_one_capture_while_recording_witness :
  let s := Session.recordMeeper Example.merge (Some [0%nat]) (Some [1%nat])
             Example.world [] Session.Failed in
  Session.captures s = [0%nat] /\
  Session.captures
    (Lifecycle.runSteps Example.merge
       [Lifecycle.Happens Session.Pause] s) = [].
Proof.
  cbv zeta. split.
  - destruct (X5_one_capture_while_recording Example.merge
                (Some [0%nat]) (Some [1%nat]) Example.world []
                Session.Failed []) as [H _].
    destruct H as (id & Hid & Hc). vm_compute in Hid.
    injection Hid as <-. exact Hc.
  - destruct (X5_one_capture_while_recording Example.merge
                (Some [0%nat]) (Some [1%nat]) Example.world []
                Session.Failed [Lifecycle.Happens Session.Pause]) as [H _].
    exact H.
Defined.

(** A poll on the recording sample session only schedules the next one. *)
Lemma X6_healthy_poll_witness :
  Session.checkIsStreamIsActive Example.merge [] Session.Failed
    Example.recordingSession
  = Session.set_pendingPoll true Example.recordingSession.
Proof.
  exact (X6_healthy_poll Example.merge [] Session.Failed
           Example.recordingSession eq_refl eq_refl).
Defined.

(** After [stop()] on the recording sample session the tab track 0 and the
    microphone track 1 are still live: the merged stream has tracks 10 and
    11. *)
Lemma X8_stop_ends_merged_tracks_only_witness :
  Session.tracks (Session.stop Example.recordingSession) !! 1%nat
  = Some Session.live.
Proof.
  destruct (X8_stop_ends_merged_tracks_only Example.recordingSession 1%nat)
    as [H _].
  - vm_compute. intros H. repeat (apply elem_of_cons in H as [H|H];
      [discriminate H|]). by apply elem_of_nil in H.
  - rewrite H. reflexivity.
Defined.

(** ** The transcript over the life of a session *)

Section ContentFacts.
Import JS Transcript Session Lifecycle.

Variable mergeStreams : option (list nat) -> option (list nat) -> list nat.

Abbreviation poll' := (checkIsStreamIsActive mergeStreams).
Abbreviation steps' := (runSteps mergeStreams).

(** What an event does to the transcript. *)
Lemma runEvent_content (s : Session) (e : Event) :
  content (runEvent s e) =
  match e with
  | TaskRun textPromise _ => applyText (content s) (caughtText textPromise)
  | _ => content s
  end.
Proof.
  destruct e as [| | |t|tp db]; simpl.
  - by destruct (start_frame s) as [-> _].
  - by destruct (pause_frame s) as [-> _].
  - by destruct (stop_frame s) as [-> _].
  - done.
  - by rewrite queueTask_spec.
Qed.

Lemma onMicCapture_content (m : list nat) (s : Session) :
  content (onMicCapture mergeStreams m s) = content s.
Proof.
  unfold onMicCapture. destruct (recording s).
  - match goal with |- context [start ?x] =>
      destruct (start_frame x) as [-> _] end.
    simpl. by destruct (pause_frame s) as [-> _].
  - done.
Qed.

Lemma checkStreams_content (s : Session) :
  content (checkStreams s) = content s.
Proof.
  unfold checkStreams. cbv zeta. destruct (negb _); [|done].
  simpl. by destruct (stop_frame s) as [-> _].
Qed.

(** A poll changes the transcript only through the tasks that run while it
    is suspended. *)
Lemma poll_content during r (s : Session) :
  content (poll' during r s) =
  if micLost s then content (runEvents during (set_pendingPoll false s))
  else content s.
Proof.
  unfold checkIsStreamIsActive. cbv zeta. rewrite checkStreams_content.
  change (micLost (set_pendingPoll false s)) with (micLost s).
  destruct (micLost s); [|done].
  destruct r as [m|]; [apply onMicCapture_content | done].
Qed.

Lemma runEvents_noTask_content (es : list Event) (s : Session) :
  noTask es -> content (runEvents es s) = content s.
Proof.
  revert s. induction es as [|e es IH]; intros s H; [done|].
  apply Forall_cons in H as [He H]. simpl.
  rewrite IH by done. rewrite runEvent_content. by destruct e.
Qed.

(** X9: [start()], [pause()], [stop()], a track ending and the stream
    monitor, a successful or failed microphone re-acquisition included,
    never change the transcript: over any steps in which no queue task
    runs the content stays what it was. *)
Theorem X9_only_tasks_change_content (sts : list Step) (s : Session) :
  noTasks sts -> content (steps' sts s) = content s.
Proof.
  revert s. induction sts as [|st sts IH]; intros s H; [done|].
  apply Forall_cons in H as [Hst H]. simpl. rewrite IH by done.
  destruct st as [e|during r]; simpl.
  - rewrite runEvent_content. apply Forall_cons in Hst as [He _].
    by destruct e.
  - destruct (pendingPoll s); [|done]. rewrite poll_content.
    destruct (micLost s); [|done]. by rewrite runEvents_noTask_content.
Qed.

(** *** Growth *)

Lemma extends_grows (c c' : Transcript.content) :
  extends c c' -> grows c c'.
Proof. intros [[? _] ?]. by split. Qed.

Lemma grows_refl (c : Transcript.content) : grows c c.
Proof. by split. Qed.

Lemma grows_trans (c1 c2 c3 : Transcript.content) :
  grows c1 c2 -> grows c2 c3 -> grows c1 c3.
Proof.
  intros [Hl1 Ht1] [Hl2 Ht2]. split; [lia|].
  rewrite <- Ht1.
  replace (length c1 - 1)%nat
    with (Nat.min (length c1 - 1) (length c2 - 1)) by lia.
  rewrite <- !take_take. by rewrite Ht2.
Qed.

(** A task keeps every segment but possibly the last and adds at most
    one. *)
Lemma applyText_extends (c : Transcript.content) (text : option jsstring) :
  extends c (applyText c text).
Proof.
  unfold applyText. destruct (negb (truthy text)); [by split; [lia|]|].
  set (T := default [] text). unfold mergeInto.
  destruct c as [|x init _] using rev_ind.
  - rewrite index_nil. simpl. split; [simpl; lia | done].
  - rewrite index_last.
    change (trim <$> Some x) with (Some (trim x)). cbv beta iota zeta.
    destruct (truthy (Some (trim x)) && endsWith (trim x) threeDot).
    + rewrite assign_last. unfold extends. rewrite !length_app. simpl.
      split; [lia|]. replace (length init + 1 - 1)%nat with (length init)
        by lia.
      by rewrite !take_app_length.
    + unfold extends. rewrite !length_app. simpl. split; [lia|].
      replace (length init + 1 - 1)%nat with (length init) by lia.
      by rewrite <- app_assoc, !take_app_length.
Qed.

Lemma runEvents_grows (es : list Event) (s : Session) :
  grows (content s) (content (runEvents es s)).
Proof.
  revert s. induction es as [|e es IH]; intros s; [apply grows_refl|].
  simpl. eapply grows_trans; [|apply IH]. rewrite runEvent_content.
  destruct e; try apply grows_refl. apply extends_grows, applyText_extends.
Qed.

(** X10: the transcript is append-mostly. One queue task keeps every
    segment except possibly the last one and adds at most one segment; and
    over any steps of a session (commands, track ends, tasks, polls) the
    transcript never gets shorter and every segment that was not the last
    one stays exactly as it was. *)
Theorem X10_transcript_grows (sts : list Step) (s : Session) :
  (forall textPromise dbUpdates,
      extends (content s)
        (content (snd (queueTask textPromise dbUpdates s)))) /\
  grows (content s) (content (steps' sts s)).
Proof.
  split.
  - intros tp db. rewrite queueTask_spec. apply applyText_extends.
  - revert s. induction sts as [|st sts IH]; intros s; [apply grows_refl|].
    simpl. eapply grows_trans; [|apply IH].
    destruct st as [e|during r]; simpl.
    + apply (runEvents_grows [e]).
    + destruct (pendingPoll s); [|apply grows_refl]. rewrite poll_content.
      destruct (micLost s); [|apply grows_refl].
      apply (runEvents_grows during (set_pendingPoll false s)).
Qed.

(** *** Microphone recovery *)

(** X7: take a poll that finds the microphone inactive while the session
    is recording, its capture running and the tab source (if any) active;
    let [micCapture()]
    succeed with an active microphone stream and let nothing else happen
    while the poll awaits it. Then the poll pauses, swaps in the new
    microphone and the re-derived merged stream, leaves the transcript
    untouched and schedules the next poll; if the re-derived stream is
    active it starts again: the old capture is torn down, a new one is
    begun on the new stream, and the listener is told "paused" then
    "recording"; if the re-derived stream is inactive, recording stays off
    after the pause although polling goes on. *)
Theorem X7_mic_recovery (s : Session) (old m : list nat) (id : nat) :
  recording s = true ->
  stopCaptureAudio s = Some id ->
  captures s = [id] ->
  micStream s = Some old ->
  active (tracks s) old = false ->
  active (tracks s) m = true ->
  sourceActive (tracks s) (tabCaptureStream s) = true ->
  let merged := mergeStreams (tabCaptureStream s) (Some m) in
  let s' := poll' [] (Acquired m) s in
  micStream s' = Some m /\ stream s' = merged /\
  content s' = content s /\ pendingPoll s' = true /\
  (active (tracks s) merged = true ->
   recording s' = true /\ captures s' = [nextCapture s] /\
   effects s' = effects s ++
     [Dispatch false (content s); StopCaptureAudio id;
      Dispatch true (content s); CaptureAudio (nextCapture s) merged]) /\
  (active (tracks s) merged = false ->
   recording s' = false /\ captures s' = [] /\
   effects s' = effects s ++
     [Dispatch false (content s); StopCaptureAudio id]).
Proof.
  intros Hr Hid Hc Hmic Hold Hm Htab. cbv zeta.
  unfold checkIsStreamIsActive, micLost, onMicCapture, runEvents.
  destruct s as [rec c tab mic str sca σ caps nc pp eff].
  simpl in *. subst. rewrite Hold. simpl.
  unfold pause, callStopCaptureAudio, dispatch, emit, set_recording. simpl.
  rewrite filter_cons, decide_False by tauto. rewrite filter_nil.
  unfold set_mic. simpl. unfold start. simpl.
  destruct (active σ (mergeStreams tab (Some m))) eqn:E; simpl.
  - unfold checkStreams. simpl. rewrite Htab, Hm. simpl.
    do 4 (split; [done|]). split; [|discriminate].
    intros _. do 2 (split; [done|]). by rewrite <- !app_assoc.
  - unfold checkStreams. simpl. rewrite Htab, Hm. simpl.
    do 4 (split; [done|]). split; [discriminate|].
    intros _. do 2 (split; [done|]). by rewrite <- !app_assoc.
Qed.

End ContentFacts.

(** The microphone of the recording sample session has ended and a new one
    on track 3 is acquired: recording goes on with capture 1 on the merged
    tracks 10 and 13. *)
Lemma X7_mic_recovery_witness :
  let s' := Session.checkIsStreamIsActive Example.merge []
              (Session.Acquired [3%nat]) Example.micEnded in
  Session.recording s' = true /\ Session.captures s' = [1%nat] /\
  Session.stream s' = [10%nat; 13%nat] /\ Session.pendingPoll s' = true.
Proof.
  cbv zeta.
  destruct (X7_mic_recovery Example.merge Example.micEnded [1%nat] [3%nat]
              0%nat eq_refl eq_refl eq_refl eq_refl eq_refl eq_refl eq_refl)
    as (_ & Hs & _ & Hp & Hok & _).
  destruct (Hok eq_refl) as (Hr & Hc & _).
  split; [exact Hr|]. split; [exact Hc|]. split; [exact Hs | exact Hp].
Defined.

(** Pause, start, a poll and stop leave a transcript of one segment as it
    is. *)
Lemma X9_only_tasks_change_content_witness :
  let s := Session.runEvents
             [Session.TaskRun (Session.Fulfilled (JS.str "Hello there."))
                (Session.Fulfilled tt)] Example.recordingSession in
  Session.content
    (Lifecycle.runSteps Example.merge
       [Lifecycle.Happens Session.Pause; Lifecycle.Happens Session.Start;
        Lifecycle.Poll [] Session.Failed; Lifecycle.Happens Session.Stop] s)
  = [JS.str "Hello there."].
Proof.
  cbv zeta.
  rewrite (X9_only_tasks_change_content Example.merge).
  - reflexivity.
  - repeat constructor.
Defined.

(** ** Continuation of a segment *)

Section ContinuationFacts.
Import JS Transcript.

Lemma endsWith_app (p x : jsstring) : endsWith (p ++ x) x = true.
Proof.
  unfold endsWith. rewrite length_app.
  destruct (Z.ltb_spec (Z.of_nat (length p + length x)
                        - Z.of_nat (length x)) 0) as [H|H]; [lia|].
  apply bool_decide_eq_true.
  replace (Z.to_nat (Z.of_nat (length p + length x) - Z.of_nat (length x)))
    with (length p) by lia.
  apply drop_app_length.
Qed.

Lemma endsWith_suffix (s x : jsstring) :
  endsWith s x = true -> exists p, s = p ++ x.
Proof. intros H. eexists. symmetry. by apply endsWith_split. Qed.

(** Trimming removes no dot: a string that ends with the marker still ends
    with it after [trim]. *)
Lemma trimStart_threeDot (p : jsstring) :
  exists p', trimStart (p ++ threeDot) = p' ++ threeDot.
Proof.
  induction p as [|c p [p' IH]].
  - by exists [].
  - simpl. destruct (isWhiteSpace c).
    + by exists p'.
    + by exists (c :: p).
Qed.

Lemma trimEnd_threeDot (p : jsstring) :
  trimEnd (p ++ threeDot) = p ++ threeDot.
Proof.
  unfold trimEnd. change threeDot with [46; 46; 46]%N.
  rewrite rev_app_distr. simpl.
  by rewrite rev_involutive, <- !app_assoc.
Qed.

Lemma endsWith_trim (s : jsstring) :
  endsWith s threeDot = true -> endsWith (trim s) threeDot = true.
Proof.
  intros H. destruct (endsWith_suffix _ _ H) as [p ->].
  unfold trim. destruct (trimStart_threeDot p) as [p' ->].
  rewrite trimEnd_threeDot. apply endsWith_app.
Qed.

(** After a text has been applied, the last segment ends with that text. *)
Lemma mergeInto_last (c : content) (T : jsstring) :
  exists init x, mergeInto c T = init ++ [x ++ T].
Proof.
  unfold mergeInto. destruct c as [|l init _] using rev_ind.
  - rewrite index_nil. by exists [], [].
  - rewrite index_last.
    change (trim <$> Some l) with (Some (trim l)). cbv beta iota zeta.
    destruct (truthy (Some (trim l)) && endsWith (trim l) threeDot).
    + rewrite assign_last. eexists init, _. by rewrite <- app_assoc.
    + by exists (init ++ [l]), [].
Qed.

(** X11: a text that itself ends with ["..."] leaves the segment open: the
    next non-empty text is merged into that same segment, so a sentence
    split over several chunks ends up in one segment. *)
Theorem X11_continuation_chain (c : content) (T1 T2 : jsstring) :
  endsWith T1 threeDot = true ->
  T2 <> [] ->
  let c1 := applyText c (Some T1) in
  let c2 := applyText c1 (Some T2) in
  length c2 = length c1 /\
  exists seg, last c2 = Some (seg ++ space ++ T2).
Proof.
  intros H1 H2. cbv zeta.
  assert (HT1 : T1 <> []) by (intros ->; discriminate H1).
  rewrite (applyText_nonempty c T1) by done.
  destruct (mergeInto_last c T1) as (init & x & ->).
  rewrite applyText_nonempty by done.
  rewrite mergeInto_continue.
  - split; [by rewrite !length_app|]. eexists. by rewrite last_snoc.
  - apply endsWith_trim. destruct (endsWith_suffix _ _ H1) as [p ->].
    rewrite app_assoc. apply endsWith_app.
Qed.

(** "So..." then "we begin..." then "now." make one segment. *)
Lemma X11_continuation_chain_witness :
  length (applyText (applyText [str "So..."] (Some (str "we begin...")))
            (Some (str "now.")))
  = length (applyText [str "So..."] (Some (str "we begin..."))).
Proof.
  exact (proj1 (X11_continuation_chain [str "So..."] (str "we begin...")
                  (str "now.") eq_refl ltac:(discriminate))).
Defined.

End ContinuationFacts.

(** Two tasks on the recording sample session: the transcript only
    grows. *)
Lemma X10_transcript_grows_witness :
  Lifecycle.grows []
    (Session.content
       (Lifecycle.runSteps Example.merge
          [Lifecycle.Happens
             (Session.TaskRun (Session.Fulfilled (JS.str "So..."))
                (Session.Fulfilled tt));
           Lifecycle.Happens
             (Session.TaskRun (Session.Fulfilled (JS.str "now."))
                (Session.Fulfilled tt))]
          Example.recordingSession)).
Proof.
  exact (proj2 (X10_transcript_grows Example.merge
    [Lifecycle.Happens
       (Session.TaskRun (Session.Fulfilled (JS.str "So..."))
          (Session.Fulfilled tt));
     Lifecycle.Happens
       (Session.TaskRun (Session.Fulfilled (JS.str "now."))
          (Session.Fulfilled tt))]
    Example.recordingSession)).
Defined.

(** ** Acquiring the streams and starting up *)

Section StartupFacts.
Import JS Transcript Session Lifecycle.

Variable mergeStreams : option (list nat) -> option (list nat) -> list nat.

(** X13: [getStreams] asks for the tab stream unless the record type is
    [MicOnly] and for the microphone unless it is [StereoOnly]; it is
    rejected exactly when a capture it asked for is rejected, and otherwise
    each stream of the result is the captured one, or [null] for the source
    it did not ask for. *)
Theorem X13_getStreams (recordType : RecordType)
    (tabCapture micCapture : Settled (list nat)) :
  (getStreams recordType tabCapture micCapture = Rejected <->
   (recordType <> MicOnly /\ tabCapture = Rejected) \/
   (recordType <> StereoOnly /\ micCapture = Rejected)) /\
  forall tab mic,
    getStreams recordType tabCapture micCapture = Fulfilled (tab, mic) ->
    (tab = None <-> recordType = MicOnly) /\
    (mic = None <-> recordType = StereoOnly) /\
    (forall t, tab = Some t -> tabCapture = Fulfilled t) /\
    (forall m, mic = Some m -> micCapture = Fulfilled m).
Proof.
  split.
  - destruct recordType, tabCapture, micCapture; simpl;
      split; intros H; try done; try (by left); try (by right);
      destruct H as [[? ?]|[? ?]]; done.
  - intros tab mic.
    destruct recordType, tabCapture, micCapture; simpl; intros H;
      try done; injection H as <- <-;
      (split; [split; intros; done|]);
      (split; [split; intros; done|]);
      (split; intros ? ?; congruence).
Qed.

(** A meeting recording whose microphone capture is refused is rejected
    although the tab capture succeeded. *)
Lemma X13_getStreams_witness :
  getStreams Full (Fulfilled [0%nat]) Rejected = Rejected.
Proof.
  apply (proj1 (X13_getStreams Full (Fulfilled [0%nat]) Rejected)).
  right. split; [discriminate | reflexivity].
Defined.

Lemma micless_event (s : Session) (e : Event) :
  micStream s = None -> micStream (runEvent s e) = None.
Proof.
  intros H. destruct (runEvent_evolves s e) as (_ & Hm & _). congruence.
Qed.

Lemma micless_poll during r (s : Session) :
  micStream s = None ->
  checkIsStreamIsActive mergeStreams during r s
  = checkStreams (set_pendingPoll false s).
Proof.
  intros H. unfold checkIsStreamIsActive, micLost. simpl. by rewrite H.
Qed.

Lemma checkStreams_mic (s : Session) :
  micStream (checkStreams s) = micStream s.
Proof.
  unfold checkStreams. cbv zeta. destruct (negb _); [|done]. simpl.
  by destruct (stop_frame s) as (_ & _ & -> & _).
Qed.

(** X14: a session without a microphone (tab-only recording) never
    attempts a microphone capture: its [micStream] stays [null] through
    every command, track end, task and poll, and each poll is the stream
    check alone, whose outcome depends on the tab only: the next poll is
    scheduled exactly when the tab stream is active. *)
Theorem X14_session_without_microphone (sts : list Step) (s : Session) :
  micStream s = None ->
  micStream (runSteps mergeStreams sts s) = None /\
  forall during r,
    checkIsStreamIsActive mergeStreams during r s
    = checkStreams (set_pendingPoll false s) /\
    (pendingPoll (checkIsStreamIsActive mergeStreams during r s) = true <->
     sourceActive (tracks s) (tabCaptureStream s) = true).
Proof.
  intros H. split.
  - revert s H. induction sts as [|st sts IH]; intros s H; [done|].
    simpl. apply IH. destruct st as [e|during r]; simpl.
    + by apply micless_event.
    + destruct (pendingPoll s); [|done].
      rewrite micless_poll by done. by rewrite checkStreams_mic.
  - intros during r. rewrite micless_poll by done. split; [done|].
    unfold checkStreams. simpl. rewrite H. simpl. rewrite andb_true_r.
    destruct (sourceActive (tracks s) (tabCaptureStream s)); simpl.
    + done.
    + destruct (stop_frame (set_pendingPoll false s))
        as (_ & _ & _ & _ & -> & _). simpl. split; discriminate.
Qed.

(** The poll of a healthy session. *)
Lemma poll_healthy during r (s : Session) :
  sourceActive (tracks s) (tabCaptureStream s) = true ->
  sourceActive (tracks s) (micStream s) = true ->
  checkIsStreamIsActive mergeStreams during r s = set_pendingPoll true s.
Proof.
  intros Ht Hm. unfold checkIsStreamIsActive, micLost. simpl.
  unfold sourceActive in Hm. destruct (micStream s) as [m|] eqn:E.
  - rewrite Hm. simpl. rewrite checkStreams_active; simpl;
      [done | done | by rewrite E].
  - rewrite checkStreams_active; simpl; [done | done | by rewrite E].
Qed.

(** X15: when [recordMeeper] reaches [start(); checkIsStreamIsActive()]
    with every source active, it returns a session that is recording, has
    told the listener so once, runs capture 0 on the merged stream and has
    the next poll pending, provided the merged stream is active; if the
    merged stream is not active, [start()] does nothing: the session is
    not recording, no notification is sent, and only the poll is
    pending. *)
Theorem X15_recordMeeper_startup (tab mic : option (list nat))
    (σ : list readyState) (during : list Event) (r : MicCapture) :
  sourceActive σ tab = true ->
  sourceActive σ mic = true ->
  let merged := mergeStreams tab mic in
  let s := recordMeeper mergeStreams tab mic σ during r in
  pendingPoll s = true /\ content s = [] /\ stream s = merged /\
  (active σ merged = true ->
   recording s = true /\ captures s = [0%nat] /\
   effects s = [Dispatch true []; CaptureAudio 0 merged]) /\
  (active σ merged = false ->
   recording s = false /\ captures s = [] /\ effects s = []).
Proof.
  intros Ht Hm. cbv zeta. unfold recordMeeper.
  rewrite poll_healthy.
  - unfold start, init. simpl.
    destruct (active σ (mergeStreams tab mic)); simpl;
      (do 3 (split; [done|])); (split; intros H; done).
  - by destruct (start_frame (init mergeStreams tab mic σ))
      as (_ & -> & _ & _ & -> & _).
  - by destruct (start_frame (init mergeStreams tab mic σ))
      as (_ & _ & -> & _ & -> & _).
Qed.

End StartupFacts.

(** A tab-only session whose tab has ended is stopped by the poll. *)
Lemma X14_session_without_microphone_witness :
  let s := Session.runEvents [Session.TrackEnded 0]
             (Session.start
                (Session.init Example.merge (Some [0%nat]) None
                   Example.world)) in
  Session.pendingPoll
    (Session.checkIsStreamIsActive Example.merge []
       (Session.Acquired [3%nat]) s) <> true.
Proof.
  cbv zeta. intros H.
  destruct (X14_session_without_microphone Example.merge []
              (Session.runEvents [Session.TrackEnded 0]
                 (Session.start
                    (Session.init Example.merge (Some [0%nat]) None
                       Example.world))) eq_refl) as [_ Hp].
  destruct (Hp [] (Session.Acquired [3%nat])) as [_ [Hq _]].
  discriminate (Hq H).
Defined.

(** The sample session starts up recording. *)
Lemma X15_recordMeeper_startup_witness :
  let s := Session.recordMeeper Example.merge (Some [0%nat]) (Some [1%nat])
             Example.world [] Session.Failed in
  Session.recording s = true /\ Session.pendingPoll s = true.
Proof.
  cbv zeta.
  destruct (X15_recordMeeper_startup Example.merge (Some [0%nat])
              (Some [1%nat]) Example.world [] Session.Failed
              eq_refl eq_refl) as (Hp & _ & _ & Hok & _).
  destruct (Hok eq_refl) as [Hr _]. split; [exact Hr | exact Hp].
Defined.

(** ** The status line and the record type of a tab *)

Section StatusFacts.
Import JS Lifecycle RecordHeader.

(** X16: the status line of the record page. An inactive stream
    ([streamActive === false]) gives the "finished" text whatever else
    holds; otherwise a session that is not recording gives the "paused"
    text; otherwise the text depends on the record type, and the line is
    empty exactly when the session is recording, the stream is not known
    to be inactive and the record type is neither [Full] nor [StereoOnly]:
    that is the case for [MicOnly], and for the undefined record type with
    which [RecordPage] renders the header. *)
Theorem X16_statusText (recordType : option RecordType) (recording : bool)
    (streamActive : option bool) :
  (streamActive = Some false ->
   statusText recordType recording streamActive = finishedText) /\
  (streamActive <> Some false -> recording = false ->
   statusText recordType recording streamActive = pausedText) /\
  (statusText recordType recording streamActive = [] <->
   streamActive <> Some false /\ recording = true /\
   recordType <> Some Full /\ recordType <> Some StereoOnly) /\
  (streamActive <> Some false ->
   statusText None true streamActive = [] /\
   statusText (Some MicOnly) true streamActive = []).
Proof.
  split; [by intros ->|]. split.
  { intros Ha ->. unfold statusText.
    by rewrite bool_decide_eq_false_2. }
  split.
  - destruct streamActive as [[]|], recording, recordType as [[]|];
      vm_compute; split; try discriminate; try done;
      intros (? & ? & ? & ?); done.
  - intros Ha. destruct streamActive as [[]|]; done.
Qed.

End StatusFacts.

(** While recording with a live stream, the header rendered without a
    record type shows an empty status line. *)
Lemma X16_statusText_witness :
  RecordHeader.statusText None true (Some true) = [].
Proof.
  destruct (X16_statusText None true (Some true)) as (_ & _ & _ & H).
  exact (proj1 (H ltac:(discriminate))).
Defined.

Section PopupFacts.
Import JS Lifecycle Popup.

Lemma startsWith_spec (s search : jsstring) :
  startsWith s search = true <-> exists post, s = search ++ post.
Proof.
  revert s. induction search as [|c search IH]; intros s.
  - split; [intros _; by exists s | intros _; by destruct s].
  - destruct s as [|d s]; simpl.
    + split; [discriminate | intros [post H]; discriminate H].
    + rewrite andb_true_iff, N.eqb_eq, IH. split.
      * intros [-> [post ->]]. by exists post.
      * intros [post H]. injection H as -> ->. eauto.
Qed.

(** [includes] finds [search] wherever it occurs. *)
Lemma includes_spec (s search : jsstring) :
  includes s search = true <-> exists pre post, s = pre ++ search ++ post.
Proof.
  induction s as [|d s IH].
  - change (includes [] search) with (startsWith [] search || false).
    rewrite orb_false_r, startsWith_spec. split.
    + intros [post H]. by exists [], post.
    + intros (pre & post & H). destruct pre; [by exists post|done].
  - change (includes (d :: s) search)
      with (startsWith (d :: s) search || includes s search).
    rewrite orb_true_iff, IH, startsWith_spec. split.
    + intros [[post H]|(pre & post & H)].
      * by exists [], post.
      * exists (d :: pre), post. by rewrite H.
    + intros (pre & post & H). destruct pre as [|d' pre].
      * left. by exists post.
      * right. injection H as -> ->. eauto.
Qed.

(** X17: the record type proposed for a tab is [Full] exactly when the
    tab has a URL in which "teams.live", "meet.google" or "zoom" occurs
    somewhere (host, path or query, case-sensitively), and [StereoOnly]
    otherwise, a tab without URL included; it is never [MicOnly]. *)
Theorem X17_matchRecordType (url : option jsstring) :
  (matchRecordType url = Full <->
   exists u entry pre post,
     url = Some u /\ entry ∈ meetLikeEntries /\ u = pre ++ entry ++ post) /\
  (matchRecordType url <> Full -> matchRecordType url = StereoOnly) /\
  matchRecordType url <> MicOnly /\
  matchRecordType None = StereoOnly.
Proof.
  assert (Hex : existsb (fun entry => match url with
                                      | Some u => includes u entry
                                      | None => false
                                      end) meetLikeEntries = true <->
                exists u entry pre post,
                  url = Some u /\ entry ∈ meetLikeEntries /\
                  u = pre ++ entry ++ post).
  { rewrite existsb_exists. split.
    - intros (entry & Hin & H). destruct url as [u|]; [|done].
      apply includes_spec in H as (pre & post & ->).
      exists (pre ++ entry ++ post), entry, pre, post.
      split; [done|]. split; [by apply list_elem_of_In | done].
    - intros (u & entry & pre & post & -> & Hin & ->).
      exists entry. split; [by apply list_elem_of_In|].
      apply includes_spec. eauto. }
  unfold matchRecordType.
  destruct (existsb _ meetLikeEntries) eqn:E.
  - split; [split; [intros _; by apply Hex | done]|].
    split; [done|]. split; done.
  - split; [split; [done|]|].
    + intros H. apply Hex in H. discriminate H.
    + split; [done|]. split; done.
Qed.

End PopupFacts.

(** A search page whose query mentions zoom is proposed as a meeting. *)
Lemma X17_matchRecordType_witness :
  Popup.matchRecordType (Some (JS.str "https://example.com/?q=zoom"))
  = Lifecycle.Full.
Proof.
  apply (proj1 (X17_matchRecordType
                  (Some (JS.str "https://example.com/?q=zoom")))).
  exists (JS.str "https://example.com/?q=zoom"), (JS.str "zoom"),
    (JS.str "https://example.com/?q="), [].
  split; [reflexivity|]. split; [|reflexivity].
  apply list_elem_of_In. simpl. auto.
Defined.

(** Speech starts twice in a row: the first recorder is not the one the
    teardown stops. *)
Lemma X3_teardown_stops_latest_only_witness :
  Capture.nextRecorder
    (CaptureRun.run [CaptureRun.SpeechStart 1000] (Capture.captureAudio None))
  <> 0%nat.
Proof.
  intros H.
  destruct (X3_teardown_stops_latest_only [CaptureRun.SpeechStart 1000]
              None 2000) as (_ & _ & Hne).
  exact (Hne 0%nat eq_refl (eq_sym H)).
Defined.

(** ** The request of a chunk *)

Section RequestFacts.
Import JS Transcript Session Pipeline PipelineRun.

Variable request : nat -> nat -> Settled jsstring.
Variable dbUpdates : nat -> Settled unit.
Variable apiKeyEnv : option jsstring.

Abbreviation step1 := (Pipeline.step request dbUpdates apiKeyEnv).
Abbreviation run1 := (Pipeline.run request dbUpdates apiKeyEnv).

Lemma lookupAwaiting_app i w (l l' : list (nat * jsstring)) :
  lookupAwaiting i l = Some w -> lookupAwaiting i (l ++ l') = Some w.
Proof.
  unfold lookupAwaiting. rewrite filter_app.
  by destruct (filter _ l).
Qed.

Lemma lookupAwaiting_filter i j (l : list (nat * jsstring)) :
  j <> i ->
  lookupAwaiting i (filter (fun x => fst x <> j) l) = lookupAwaiting i l.
Proof.
  intros Hne. unfold lookupAwaiting. f_equal. f_equal.
  induction l as [|[k w] l IH]; [done|].
  rewrite !filter_cons. simpl.
  destruct (decide (k <> j)) as [Hk|Hk].
  - rewrite filter_cons. simpl. by rewrite IH.
  - assert (k = j) as -> by (destruct (decide (k = j)); tauto).
    by rewrite decide_False.
Qed.

(** The lookup of chunk [i] stays pending, with its prompt, until it
    resolves. *)
Lemma step_keeps_awaiting i w (p : State) (e : Event) :
  lookupPending i [e] ->
  lookupAwaiting i (awaiting p) = Some w ->
  lookupAwaiting i (awaiting (step1 p e)) = Some w.
Proof.
  intros He H. apply Forall_cons in He as [He _].
  destruct e as [j|j lang|j|]; simpl.
  - destruct (bool_decide _); [done|]. simpl. by apply lookupAwaiting_app.
  - destruct (lookupAwaiting j (awaiting p)); [|done]. simpl.
    by rewrite lookupAwaiting_filter.
  - by destruct (_ && _).
  - destruct (queue p); [done|]. by destruct (bool_decide _).
Qed.

Lemma run_keeps_awaiting i w (es : list Event) (p : State) :
  lookupPending i es ->
  lookupAwaiting i (awaiting p) = Some w ->
  lookupAwaiting i (awaiting (run1 es p)) = Some w.
Proof.
  revert p. induction es as [|e es IH]; intros p He H; [done|].
  apply Forall_cons in He as [He Hes]. simpl. apply IH; [done|].
  apply step_keeps_awaiting; [|done]. by apply Forall_singleton.
Qed.

Lemma lookupAwaiting_fresh i w (l : list (nat * jsstring)) :
  i ∉ l.*1 -> lookupAwaiting i (l ++ [(i, w)]) = Some w.
Proof.
  intros H. unfold lookupAwaiting. rewrite filter_app.
  replace (filter (fun x => fst x = i) l) with (@nil (nat * jsstring)).
  - rewrite filter_cons. simpl. by rewrite decide_True.
  - symmetry. induction l as [|[k v] l IH]; [done|].
    simpl in H. apply not_elem_of_cons in H as [Hne Hl].
    rewrite filter_cons. simpl. rewrite decide_False by done. by apply IH.
Qed.

(** X18: the request of a chunk carries the prompt computed from the
    transcript as it was when the chunk arrived: whatever happens while
    [getLangCode()] is pending (other chunks, tasks changing the
    transcript), the options built when the lookup resolves hold that
    earlier prompt, with the language looked up (none for "auto"), and the
    chunk's task joins the queue at that moment. *)
Theorem X18_prompt_is_taken_at_arrival (p : State) (i : nat)
    (es : list Event) (savedLanguage : jsstring) :
  i ∉ created p ->
  i ∉ (awaiting p).*1 ->
  lookupPending i es ->
  let arrived := step1 p (AudioChunk i) in
  let before := run1 es arrived in
  let after := step1 before (LangCode i savedLanguage) in
  requests after =
    requests before ++
    [(i, whisperOptions apiKeyEnv (whisperPrompt (content (session p)))
           savedLanguage)] /\
  queue after = queue before ++ [i] /\
  enqueued after = enqueued before ++ [i].
Proof.
  intros Hc Ha Hes. cbv zeta.
  assert (H : lookupAwaiting i
                (awaiting (run1 es (step1 p (AudioChunk i))))
              = Some (whisperPrompt (content (session p)))).
  { apply run_keeps_awaiting; [done|]. simpl.
    rewrite bool_decide_eq_false_2 by done. simpl.
    by apply lookupAwaiting_fresh. }
  set (before := run1 es (step1 p (AudioChunk i))) in *.
  change (step1 before (LangCode i savedLanguage)) with
    (match lookupAwaiting i (awaiting before) with
     | None => before
     | Some whisperPrompt =>
         {| session := session before;
            awaiting := filter (fun x => fst x <> i) (awaiting before);
            requests := requests before ++
              [(i, whisperOptions apiKeyEnv whisperPrompt savedLanguage)];
            queue := queue before ++ [i];
            settled := settled before;
            created := created before;
            enqueued := enqueued before ++ [i] |}
     end).
  by rewrite H.
Qed.

End RequestFacts.

(** Chunk 2 arrives on an empty transcript; chunk 1's task then writes
    "one" before chunk 2's lookup resolves: the request of chunk 2 still
    has the empty prompt. *)
Lemma X18_prompt_is_taken_at_arrival_witness :
  let p := Pipeline.run Example.answers Example.saved None
             [Pipeline.AudioChunk 1; Pipeline.LangCode 1 (JS.str "auto");
              Pipeline.Settle 1] (Pipeline.initial Example.fresh) in
  let before := Pipeline.run Example.answers Example.saved None
                  [Pipeline.RunTask]
                  (Pipeline.step Example.answers Example.saved None p
                     (Pipeline.AudioChunk 2)) in
  Session.content (Pipeline.session before) = [JS.str "one"] /\
  list.last (Pipeline.requests
     (Pipeline.step Example.answers Example.saved None before
        (Pipeline.LangCode 2 (JS.str "en"))))
  = Some (2%nat, Transcript.whisperOptions None [] (JS.str "en")).
Proof.
  cbv zeta. split; [reflexivity|].
  destruct (X18_prompt_is_taken_at_arrival Example.answers Example.saved
              None
              (Pipeline.run Example.answers Example.saved None
                 [Pipeline.AudioChunk 1; Pipeline.LangCode 1 (JS.str "auto");
                  Pipeline.Settle 1] (Pipeline.initial Example.fresh))
              2%nat [Pipeline.RunTask] (JS.str "en")) as [H _].
  - vm_compute. intros H. repeat (apply elem_of_cons in H as [H|H];
      [discriminate H|]). by apply elem_of_nil in H.
  - vm_compute. intros H. by apply elem_of_nil in H.
  - repeat constructor.
  - rewrite H. rewrite last_snoc. reflexivity.
Defined.
